(** * A shallow embedding of the chess component [react-chess-game-features.tsx]

    The component keeps its game in React state cells ([board],
    [selectedSquare], [currentPlayer], [gameMode], [availableMoves],
    [moveHistory]); every function of the component is a closure over the
    values these cells had at the render that created it.  The embedding
    therefore passes a [State] record explicitly to each function, and a
    function that calls the setters returns the updated record.

    The cells that hold the chat and the game identifier ([gameId],
    [messages], [newMessage]) are read by none of the functions embedded
    here and are left out of the record.

    JavaScript exceptions are modelled by the [result] type.  Board
    coordinates that the source computes by arithmetic are integers ([Z]);
    coordinates that come from a click on a rendered square are array
    indices ([nat]). *)

From Stdlib Require Import ZArith List String Ascii Bool Lia DecimalString.
From stdpp Require Import base decidable option list gmap strings.
Import ListNotations.
Local Open Scope Z_scope.

(** ** Exceptions *)

Inductive exn : Type :=
| TypeError      (* property access on [undefined] *)
| SyntaxError    (* [JSON.parse] on malformed text *)
| Unmodelled.    (* the input leaves the fragment covered here: saved text
                    with a number, a boolean or a string code unit above
                    255, or a parsed value that is not of the declared
                    TypeScript types (the source stores it unchecked, the
                    typed [State] below cannot hold it) *)

Inductive result (A : Type) : Type :=
| Ok (a : A)
| Err (e : exn).
Arguments Ok {A} a.
Arguments Err {A} e.

(** Sequencing: an exception aborts the rest of the function body.
    Written [x ← m; k] below. *)
#[global] Instance result_ret : MRet result := fun A a => Ok a.
#[global] Instance result_bind : MBind result := fun A B k m =>
  match m with
  | Ok a => k a
  | Err e => Err e
  end.

#[global] Instance result_fmap : FMap result := fun A B f m =>
  match m with
  | Ok a => Ok (f a)
  | Err e => Err e
  end.

(** ** Data model (lines 6-14 of the source) *)

Inductive PieceType : Set := pawn | rook | knight | bishop | queen | king.
Inductive PieceColor : Set := white | black.

Record Piece : Set := mkPiece { type : PieceType; color : PieceColor }.

#[global] Instance PieceType_eq_dec : EqDecision PieceType.
Proof. solve_decision. Defined.
#[global] Instance PieceColor_eq_dec : EqDecision PieceColor.
Proof. solve_decision. Defined.
#[global] Instance Piece_eq_dec : EqDecision Piece.
Proof. solve_decision. Defined.

(** A cell is [Piece | null].  [None] stands for every empty value a cell
    read can produce ([null], [undefined], an array hole): the source tests
    cells only with [!piece] and [?.color], which do not tell them apart. *)
Abbreviation Cell := (option Piece).
Abbreviation Row := (list Cell).
Abbreviation Board := (list Row).

Inductive GameMode : Set := multiplayer | computer.
#[global] Instance GameMode_eq_dec : EqDecision GameMode.
Proof. solve_decision. Defined.

Abbreviation Square := (Z * Z)%type.

Record State : Type := mkState {
  board : Board;
  selectedSquare : option (nat * nat);
  currentPlayer : PieceColor;
  gameMode : option GameMode;
  availableMoves : list Square;
  moveHistory : list string
}.

(** ** JavaScript array reads *)

(** [l[i]] for an integer [i]: [None] is [undefined]. *)
Definition index {A : Type} (l : list A) (i : Z) : option A :=
  if i <? 0 then None else l !! Z.to_nat i.

(** [board[r][c]]: a [TypeError] when [board[r]] is [undefined]. *)
Definition getCell (b : Board) (r c : Z) : result Cell :=
  match index b r with
  | None => Err TypeError
  | Some row => Ok (mjoin (index row c))
  end.

(** [board[r]?.[c]] *)
Definition getCellOpt (b : Board) (r c : Z) : Cell :=
  match index b r with
  | None => None
  | Some row => mjoin (index row c)
  end.

(** [cell?.color], [None] being [undefined] *)
Definition colorOf (cell : Cell) : option PieceColor := color <$> cell.

(** [!cell] *)
Definition isEmpty (cell : Cell) : bool :=
  match cell with None => true | Some _ => false end.

(** [cell?.color === c] and [cell?.color !== c] *)
Definition colorIs (cell : Cell) (c : PieceColor) : bool :=
  bool_decide (colorOf cell = Some c).
Definition colorIsNot (cell : Cell) (c : PieceColor) : bool :=
  negb (colorIs cell c).

(** ** [initialBoard] (lines 16-40) *)

Definition backRank (c : PieceColor) : Row :=
  map (fun t => Some (mkPiece t c))
      [rook; knight; bishop; queen; king; bishop; knight; rook].

Definition initialBoard : Board :=
  [ backRank black;
    replicate 8 (Some (mkPiece pawn black)) ]
  ++ replicate 4 (replicate 8 None)
  ++ [ replicate 8 (Some (mkPiece pawn white));
       backRank white ].

Definition initialState : State :=
  {| board := initialBoard;
     selectedSquare := None;
     currentPlayer := white;
     gameMode := None;
     availableMoves := [];
     moveHistory := [] |}.

(** ** [isValidMove] (lines 94-103) *)

Definition sameSquare (toRow toCol : Z) (m : Square) : bool :=
  let '(r, c) := m in (r =? toRow) && (c =? toCol).

Definition isValidMove (st : State) (from to : Square) : result bool :=
  let '(fromRow, fromCol) := from in
  let '(toRow, toCol) := to in
  piece ← getCell (board st) fromRow fromCol;
  match piece with
  | None => Ok false
  | Some p =>
      if negb (bool_decide (color p = currentPlayer st)) then Ok false
      else
        dest ← getCell (board st) toRow toCol;
        if colorIs dest (currentPlayer st) then Ok false
        else Ok (existsb (sameSquare toRow toCol) (availableMoves st))
  end.

(** ** [getAvailableMoves] (lines 61-92) *)

Definition direction (c : PieceColor) : Z :=
  match c with white => -1 | black => 1 end.

(** [if (cond) moves.push(sq)] *)
Definition pushIf (cond : bool) (sq : Square) (moves : list Square) : list Square :=
  if cond then moves ++ [sq] else moves.

(** The [case 'pawn'] arm. *)
Definition pawnMoves (b : Board) (row col : Z) (c : PieceColor) : list Square :=
  let d := direction c in
  let moves := pushIf (isEmpty (getCellOpt b (row + d) col)) (row + d, col) [] in
  let moves :=
    if ((row =? 1) && bool_decide (c = black)) || ((row =? 6) && bool_decide (c = white))
    then pushIf (isEmpty (getCellOpt b (row + 2 * d) col)) (row + 2 * d, col) moves
    else moves in
  let moves := pushIf (colorIsNot (getCellOpt b (row + d) (col - 1)) c) (row + d, col - 1) moves in
  pushIf (colorIsNot (getCellOpt b (row + d) (col + 1)) c) (row + d, col + 1) moves.

(** One iteration of the [case 'rook'] loop body. *)
Definition rookStep (st : State) (row col i : Z) (moves : list Square) : result (list Square) :=
  v ← isValidMove st (row, col) (row + i, col);
  let moves := pushIf v (row + i, col) moves in
  v ← isValidMove st (row, col) (row - i, col);
  let moves := pushIf v (row - i, col) moves in
  v ← isValidMove st (row, col) (row, col + i);
  let moves := pushIf v (row, col + i) moves in
  v ← isValidMove st (row, col) (row, col - i);
  Ok (pushIf v (row, col - i) moves).

(** [for (let i = i0; i < i0 + n; i++) body], threading the value the body
    updates. *)
Fixpoint forLoop {S : Type} (n : nat) (i : Z) (body : Z -> S -> result S)
    (s : S) : result S :=
  match n with
  | O => Ok s
  | S n' => s' ← body i s; forLoop n' (i + 1) body s'
  end.

Definition onBoard (m : Square) : bool :=
  let '(r, c) := m in (0 <=? r) && (r <? 8) && (0 <=? c) && (c <? 8).

Definition getAvailableMoves (st : State) (row col : Z) : result (list Square) :=
  piece ← getCell (board st) row col;
  match piece with
  | None => Ok []
  | Some p =>
      moves ←
        match type p with
        | pawn => Ok (pawnMoves (board st) row col (color p))
        | rook => forLoop 7 1 (rookStep st row col) []
        | _ => Ok []
        end;
      Ok (List.filter onBoard moves)
  end.

(** ** State setters *)

Definition setBoard (b : Board) (st : State) : State :=
  {| board := b; selectedSquare := selectedSquare st;
     currentPlayer := currentPlayer st; gameMode := gameMode st;
     availableMoves := availableMoves st; moveHistory := moveHistory st |}.

Definition setSelectedSquare (sq : option (nat * nat)) (st : State) : State :=
  {| board := board st; selectedSquare := sq;
     currentPlayer := currentPlayer st; gameMode := gameMode st;
     availableMoves := availableMoves st; moveHistory := moveHistory st |}.

Definition setCurrentPlayer (c : PieceColor) (st : State) : State :=
  {| board := board st; selectedSquare := selectedSquare st;
     currentPlayer := c; gameMode := gameMode st;
     availableMoves := availableMoves st; moveHistory := moveHistory st |}.

Definition setAvailableMoves (ms : list Square) (st : State) : State :=
  {| board := board st; selectedSquare := selectedSquare st;
     currentPlayer := currentPlayer st; gameMode := gameMode st;
     availableMoves := ms; moveHistory := moveHistory st |}.

Definition setMoveHistory (h : list string) (st : State) : State :=
  {| board := board st; selectedSquare := selectedSquare st;
     currentPlayer := currentPlayer st; gameMode := gameMode st;
     availableMoves := availableMoves st; moveHistory := h |}.

Definition setGameMode (g : option GameMode) (st : State) : State :=
  {| board := board st; selectedSquare := selectedSquare st;
     currentPlayer := currentPlayer st; gameMode := g;
     availableMoves := availableMoves st; moveHistory := moveHistory st |}.

(** ** The effect on [selectedSquare] (lines 53-59) *)

Definition selectionEffect (st : State) : result State :=
  match selectedSquare st with
  | Some (r, c) =>
      ms ← getAvailableMoves st (Z.of_nat r) (Z.of_nat c);
      Ok (setAvailableMoves ms st)
  | None => Ok (setAvailableMoves [] st)
  end.

(** ** Moving a piece on a copy of the board (lines 108-110 and 138-140) *)

(** [arr[i] = x] at an array index: past the end the array grows, the
    slots in between being holes. *)
Definition assign {A : Type} (hole : A) (l : list A) (i : nat) (x : A) : list A :=
  if decide (i < length l)%nat then <[i := x]> l
  else (l ++ replicate (i - length l) hole ++ [x])%list.

(** [b[r][c] = x]: a [TypeError] when [b[r]] is [undefined]. *)
Definition setCell (b : Board) (r c : nat) (x : Cell) : result Board :=
  match b !! r with
  | None => Err TypeError
  | Some row => Ok (<[r := assign None row c x]> b)
  end.

(** [board.map(row => [...row])] *)
Definition copyBoard (b : Board) : Board := map (fun row => row) b.

Definition movePiece (b : Board) (fromRow fromCol toRow toCol : nat) : result Board :=
  let newBoard := copyBoard b in
  piece ← getCell newBoard (Z.of_nat fromRow) (Z.of_nat fromCol);
  newBoard ← setCell newBoard toRow toCol piece;
  setCell newBoard fromRow fromCol None.

(** [`${n}`] for an integer *)
Definition showZ (n : Z) : string := NilZero.string_of_int (Z.to_int n).

(** [`${a},${b} to ${c},${d}`] *)
Definition historyEntry (a b c d : Z) : string :=
  (showZ a ++ "," ++ showZ b ++ " to " ++ showZ c ++ "," ++ showZ d)%string.

Definition otherColor (c : PieceColor) : PieceColor :=
  match c with white => black | black => white end.

(** ** [handleSquareClick] (lines 105-122)

    [row] and [col] are the indices of the rendered square that was
    clicked.  The boolean of the result says whether [makeComputerMove] was
    handed to [setTimeout]; that call will run with the state [st] of this
    very closure. *)
Definition handleSquareClick (st : State) (row col : nat) : result (State * bool) :=
  match selectedSquare st with
  | Some (s0, s1) =>
      v ← isValidMove st (Z.of_nat s0, Z.of_nat s1) (Z.of_nat row, Z.of_nat col);
      if (v : bool) then
        newBoard ← movePiece (board st) s0 s1 row col;
        let st' :=
          setMoveHistory
            (moveHistory st ++
               [historyEntry (Z.of_nat s0) (Z.of_nat s1) (Z.of_nat row) (Z.of_nat col)])
            (setCurrentPlayer (otherColor (currentPlayer st))
               (setBoard newBoard st)) in
        Ok (setSelectedSquare None st',
            bool_decide (gameMode st = Some computer)
              && bool_decide (currentPlayer st = white))
      else Ok (setSelectedSquare None st, false)
  | None =>
      cell ← getCell (board st) (Z.of_nat row) (Z.of_nat col);
      if negb (isEmpty cell) && colorIs cell (currentPlayer st)
      then Ok (setSelectedSquare (Some (row, col)) st, false)
      else Ok (st, false)
  end.

(** ** [makeComputerMove] (lines 124-145) *)

Abbreviation Move := (Square * Square)%type.

(** The body of the inner loop, for the square [(i, j)]. *)
Definition collectSquare (st : State) (i j : Z) (possibleMoves : list Move)
    : result (list Move) :=
  cell ← getCell (board st) i j;
  if colorIs cell black then
    moves ← getAvailableMoves st i j;
    Ok (possibleMoves ++ map (fun m => ((i, j), m)) moves)%list
  else Ok possibleMoves.

Definition possibleMoves (st : State) : result (list Move) :=
  forLoop 8 0 (fun i => forLoop 8 0 (fun j => collectSquare st i j)) [].

(** [closure] is the state the function closed over, [live] the state of
    the component when it runs (they differ when it runs from the timer);
    [pick] is the value of [Math.floor(Math.random() * possibleMoves.length)],
    an index below the length. *)
Definition makeComputerMove (closure : State) (pick : nat) (live : State) : result State :=
  moves ← possibleMoves closure;
  if (0 <? length moves)%nat then
    match moves !! pick with
    | None => Err TypeError
    | Some ((fromRow, fromCol), (toRow, toCol)) =>
        newBoard ← movePiece (board closure) (Z.to_nat fromRow) (Z.to_nat fromCol)
                      (Z.to_nat toRow) (Z.to_nat toCol);
        Ok (setMoveHistory
              (moveHistory closure ++ [historyEntry fromRow fromCol toRow toCol])
              (setCurrentPlayer white (setBoard newBoard live)))
    end
  else Ok live.

(** ** The same three lines on a store of array objects

    In the source a [Board] is an array of references to row arrays, and
    several rows may be one object: [initialBoard] fills its four empty
    ranks with a single array.  To speak about mutation the store is made
    explicit here: an object is a row of cells or an outer array of row
    references, and the [board] state cell holds a reference. *)

Module Mem.

Definition loc : Set := positive.

Inductive obj : Set :=
| ORow (cells : Row)
| OBoard (rows : list loc).

Abbreviation heap := (gmap loc obj).

(** A new object at an unused address. *)
Definition alloc (h : heap) (o : obj) : heap * loc :=
  let l := fresh (dom h) in (<[l := o]> h, l).

(** [[...row]] *)
Definition spreadRow (h : heap) (r : loc) : result (heap * loc) :=
  match h !! r with
  | Some (ORow cells) => Ok (alloc h (ORow cells))
  | _ => Err TypeError
  end.

(** [rows.map(row => [...row])], the elements of the new outer array *)
Fixpoint mapSpread (h : heap) (rows : list loc) : result (heap * list loc) :=
  match rows with
  | [] => Ok (h, [])
  | r :: rest =>
      hr ← spreadRow h r;
      hrest ← mapSpread hr.1 rest;
      Ok (hrest.1, hr.2 :: hrest.2)
  end.

(** [board.map(row => [...row])] *)
Definition copyBoard (h : heap) (b : loc) : result (heap * loc) :=
  match h !! b with
  | Some (OBoard rows) =>
      hrows ← mapSpread h rows;
      Ok (alloc hrows.1 (OBoard hrows.2))
  | _ => Err TypeError
  end.

(** The row object behind [b[r]], with its address. *)
Definition rowOf (h : heap) (b : loc) (r : nat) : result (loc * Row) :=
  match h !! b with
  | Some (OBoard rows) =>
      match rows !! r with
      | Some l =>
          match h !! l with
          | Some (ORow cells) => Ok (l, cells)
          | _ => Err TypeError
          end
      | None => Err TypeError
      end
  | _ => Err TypeError
  end.

(** [b[r][c]] *)
Definition readCell (h : heap) (b : loc) (r c : nat) : result Cell :=
  lr ← rowOf h b r;
  Ok (mjoin (lr.2 !! c)).

(** [b[r][c] = x], in place *)
Definition writeCell (h : heap) (b : loc) (r c : nat) (x : Cell) : result heap :=
  lr ← rowOf h b r;
  Ok (<[lr.1 := ORow (assign None lr.2 c x)]> h).

(** Lines 108-110 (and 138-140) against the store; the result is the
    store afterwards and the reference [newBoard]. *)
Definition movePiece (h : heap) (b : loc) (fromRow fromCol toRow toCol : nat)
    : result (heap * loc) :=
  hb ← copyBoard h b;
  let newBoard := hb.2 in
  piece ← readCell hb.1 newBoard fromRow fromCol;
  h1 ← writeCell hb.1 newBoard toRow toCol piece;
  h2 ← writeCell h1 newBoard fromRow fromCol None;
  Ok (h2, newBoard).

(** The value a row reference and a board reference stand for. *)
Definition rowValue (h : heap) (l : loc) : option Row :=
  match h !! l with
  | Some (ORow cells) => Some cells
  | _ => None
  end.

Definition boardValue (h : heap) (b : loc) : option Board :=
  match h !! b with
  | Some (OBoard rows) => mapM (rowValue h) rows
  | _ => None
  end.

(** [handleSquareClick] as far as the store is concerned: [st] is what
    the closure sees, its [board] being the value of [b]; the result is
    the store afterwards and the reference held by the [board] state
    cell. *)
Definition handleSquareClick (h : heap) (b : loc) (st : State) (row col : nat)
    : result (heap * loc) :=
  match selectedSquare st with
  | Some (s0, s1) =>
      v ← isValidMove st (Z.of_nat s0, Z.of_nat s1) (Z.of_nat row, Z.of_nat col);
      if (v : bool) then movePiece h b s0 s1 row col else Ok (h, b)
  | None =>
      _ ← getCell (board st) (Z.of_nat row) (Z.of_nat col);
      Ok (h, b)
  end.

(** [makeComputerMove] as far as the store is concerned: [b] and [st]
    belong to the closure, [live] is the reference the [board] state cell
    holds when the function runs. *)
Definition makeComputerMove (h : heap) (b : loc) (st : State) (pick : nat)
    (live : loc) : result (heap * loc) :=
  moves ← possibleMoves st;
  if (0 <? length moves)%nat then
    match moves !! pick with
    | None => Err TypeError
    | Some ((fromRow, fromCol), (toRow, toCol)) =>
        movePiece h b (Z.to_nat fromRow) (Z.to_nat fromCol)
          (Z.to_nat toRow) (Z.to_nat toCol)
    end
  else Ok (h, live).

(** [initialBoard] as the module creates it: ten row objects, the empty
    one referenced four times. *)
Definition initialHeap : heap :=
  list_to_map
    [ (1%positive, ORow (backRank black));
      (2%positive, ORow (replicate 8 (Some (mkPiece pawn black))));
      (3%positive, ORow (replicate 8 None));
      (4%positive, ORow (replicate 8 (Some (mkPiece pawn white))));
      (5%positive, ORow (backRank white));
      (6%positive, OBoard [1; 2; 3; 3; 3; 3; 4; 5]%positive) ].

Definition initialBoardRef : loc := 6%positive.

End Mem.

(** ** JSON text

    [saveGame] and [loadGame] go through [JSON.stringify] and [JSON.parse].
    The values the component saves are built from objects, arrays, strings
    and [null]; that fragment of JSON is modelled with its concrete text.
    A [string] is read as a sequence of code units below 256. *)

Unset Elimination Schemes.
Inductive json : Type :=
| JNull
| JString (s : string)
| JArray (elems : list json)
| JObject (fields : list (string * json)).
Set Elimination Schemes.

Inductive token : Type :=
| TLBracket | TRBracket | TLBrace | TRBrace | TComma | TColon
| TNull
| TString (s : string).

Definition quoteChar : ascii := "034"%char.
Definition backslash : ascii := "092"%char.

Definition hexDigit (n : N) : ascii :=
  ascii_of_N (if (n <? 10)%N then 48 + n else 87 + n).

(** [QuoteJSONString], one code unit *)
Definition escapeChar (c : ascii) : string :=
  let n := N_of_ascii c in
  if (n =? 8)%N then String backslash "b"
  else if (n =? 9)%N then String backslash "t"
  else if (n =? 10)%N then String backslash "n"
  else if (n =? 12)%N then String backslash "f"
  else if (n =? 13)%N then String backslash "r"
  else if (n =? 34)%N then String backslash (String quoteChar EmptyString)
  else if (n =? 92)%N then String backslash (String backslash EmptyString)
  else if (n <? 32)%N then
    String backslash
      (String "u" (String "0" (String "0"
         (String (hexDigit (n / 16)) (String (hexDigit (n mod 16)) EmptyString)))))
  else String c EmptyString.

Fixpoint escape (s : string) : string :=
  match s with
  | EmptyString => EmptyString
  | String c rest => (escapeChar c ++ escape rest)%string
  end.

Definition showToken (t : token) : string :=
  match t with
  | TLBracket => "["
  | TRBracket => "]"
  | TLBrace => "{"
  | TRBrace => "}"
  | TComma => ","
  | TColon => ":"
  | TNull => "null"
  | TString s => String quoteChar (escape s ++ String quoteChar EmptyString)
  end%string.

Definition render (ts : list token) : string :=
  foldr (fun t acc => (showToken t ++ acc)%string) EmptyString ts.

(** The token sequence of a value: no white space, elements separated by
    commas, properties in their order of creation. *)
Fixpoint tokens (j : json) : list token :=
  match j with
  | JNull => [TNull]
  | JString s => [TString s]
  | JArray elems =>
      TLBracket ::
        match elems with
        | [] => []
        | x :: xs => tokens x ++ flat_map (fun y => TComma :: tokens y) xs
        end ++ [TRBracket]
  | JObject fields =>
      TLBrace ::
        match fields with
        | [] => []
        | f :: fs =>
            (TString f.1 :: TColon :: tokens f.2)
              ++ flat_map (fun g => TComma :: TString g.1 :: TColon :: tokens g.2) fs
        end ++ [TRBrace]
  end.

Definition JSON_stringify (j : json) : string := render (tokens j).

Definition isWhitespace (c : ascii) : bool :=
  let n := N_of_ascii c in
  (n =? 32)%N || (n =? 9)%N || (n =? 10)%N || (n =? 13)%N.

Definition punct (c : ascii) : option token :=
  if (c =? "[")%char then Some TLBracket
  else if (c =? "]")%char then Some TRBracket
  else if (c =? "{")%char then Some TLBrace
  else if (c =? "}")%char then Some TRBrace
  else if (c =? ",")%char then Some TComma
  else if (c =? ":")%char then Some TColon
  else None.

(** First characters of the literals left out: numbers, [true], [false]. *)
Definition startsOtherLiteral (c : ascii) : bool :=
  let n := N_of_ascii c in
  (c =? "t")%char || (c =? "f")%char || (c =? "-")%char
    || ((48 <=? n)%N && (n <=? 57)%N).

Definition hexVal (c : ascii) : option N :=
  let n := N_of_ascii c in
  if (48 <=? n)%N && (n <=? 57)%N then Some (n - 48)%N
  else if (97 <=? n)%N && (n <=? 102)%N then Some (n - 87)%N
  else if (65 <=? n)%N && (n <=? 70)%N then Some (n - 55)%N
  else None.

Definition hex4 (a b c d : ascii) : option N :=
  x ← hexVal a; y ← hexVal b; z ← hexVal c; w ← hexVal d;
  Some (((x * 16 + y) * 16 + z) * 16 + w)%N.

(** The character a one-letter escape stands for. *)
Definition unescape (e : ascii) : option ascii :=
  if (e =? quoteChar)%char then Some quoteChar
  else if (e =? backslash)%char then Some backslash
  else if (e =? "/")%char then Some "/"%char
  else if (e =? "b")%char then Some (ascii_of_N 8)
  else if (e =? "f")%char then Some (ascii_of_N 12)
  else if (e =? "n")%char then Some (ascii_of_N 10)
  else if (e =? "r")%char then Some (ascii_of_N 13)
  else if (e =? "t")%char then Some (ascii_of_N 9)
  else None.

(** The lexer.  [lit] is [None] between tokens and [Some acc] inside a
    string literal, [acc] being the characters read so far, last first. *)
Fixpoint lex (lit : option (list ascii)) (s : string) {struct s} : result (list token) :=
  match s with
  | EmptyString =>
      match lit with
      | None => Ok []
      | Some _ => Err SyntaxError
      end
  | String c rest =>
      match lit with
      | None =>
          if isWhitespace c then lex None rest
          else
            match punct c with
            | Some t => cons t <$> lex None rest
            | None =>
                if (c =? quoteChar)%char then lex (Some []) rest
                else if (c =? "n")%char then
                  match rest with
                  | String u (String l1 (String l2 rest')) =>
                      if (u =? "u")%char && (l1 =? "l")%char && (l2 =? "l")%char
                      then cons TNull <$> lex None rest'
                      else Err SyntaxError
                  | _ => Err SyntaxError
                  end
                else if startsOtherLiteral c then Err Unmodelled
                else Err SyntaxError
            end
      | Some acc =>
          if (c =? quoteChar)%char
          then cons (TString (string_of_list_ascii (rev acc))) <$> lex None rest
          else if (c =? backslash)%char then
            match rest with
            | EmptyString => Err SyntaxError
            | String e rest' =>
                if (e =? "u")%char then
                  match rest' with
                  | String h1 (String h2 (String h3 (String h4 rest''))) =>
                      match hex4 h1 h2 h3 h4 with
                      | Some n =>
                          if (n <? 256)%N then lex (Some (ascii_of_N n :: acc)) rest''
                          else Err Unmodelled
                      | None => Err SyntaxError
                      end
                  | _ => Err SyntaxError
                  end
                else
                  match unescape e with
                  | Some ch => lex (Some (ch :: acc)) rest'
                  | None => Err SyntaxError
                  end
            end
          else if (N_of_ascii c <? 32)%N then Err SyntaxError
          else lex (Some (c :: acc)) rest
      end
  end.

(** The parser, a pushdown automaton over the tokens. *)
Inductive frame : Type :=
| FArr (done : list json)
| FObj (done : list (string * json)) (key : string).

Inductive pstate : Type :=
| PValue (stk : list frame)
| PArrStart (stk : list frame)
| PObjStart (stk : list frame)
| PKey (done : list (string * json)) (stk : list frame)
| PColon (done : list (string * json)) (key : string) (stk : list frame)
| PArrSep (done : list json) (stk : list frame)
| PObjSep (done : list (string * json)) (stk : list frame)
| PDone (v : json).

(** A complete value goes to the innermost open array or object. *)
Definition deliver (v : json) (stk : list frame) : pstate :=
  match stk with
  | [] => PDone v
  | FArr done :: stk' => PArrSep (v :: done) stk'
  | FObj done key :: stk' => PObjSep ((key, v) :: done) stk'
  end.

Definition stepValue (stk : list frame) (t : token) : option pstate :=
  match t with
  | TNull => Some (deliver JNull stk)
  | TString s => Some (deliver (JString s) stk)
  | TLBracket => Some (PArrStart stk)
  | TLBrace => Some (PObjStart stk)
  | _ => None
  end.

Definition step (st : pstate) (t : token) : option pstate :=
  match st, t with
  | PValue stk, _ => stepValue stk t
  | PArrStart stk, TRBracket => Some (deliver (JArray []) stk)
  | PArrStart stk, _ => stepValue (FArr [] :: stk) t
  | PObjStart stk, TRBrace => Some (deliver (JObject []) stk)
  | PObjStart stk, TString k => Some (PColon [] k stk)
  | PKey done stk, TString k => Some (PColon done k stk)
  | PColon done k stk, TColon => Some (PValue (FObj done k :: stk))
  | PArrSep done stk, TComma => Some (PValue (FArr done :: stk))
  | PArrSep done stk, TRBracket => Some (deliver (JArray (rev done)) stk)
  | PObjSep done stk, TComma => Some (PKey done stk)
  | PObjSep done stk, TRBrace => Some (deliver (JObject (rev done)) stk)
  | _, _ => None
  end.

Fixpoint run (st : pstate) (ts : list token) : option pstate :=
  match ts with
  | [] => Some st
  | t :: ts' => st' ← step st t; run st' ts'
  end.

Definition parseTokens (ts : list token) : result json :=
  match run (PValue []) ts with
  | Some (PDone v) => Ok v
  | _ => Err SyntaxError
  end.

Definition JSON_parse (s : string) : result json :=
  ts ← lex None s;
  parseTokens ts.

(** ** Typed values as JavaScript values

    A [Piece] is the object [{type, color}], a [Board] an array of arrays,
    the colours and piece types are string literals. *)

Definition typeName (t : PieceType) : string :=
  match t with
  | pawn => "pawn" | rook => "rook" | knight => "knight"
  | bishop => "bishop" | queen => "queen" | king => "king"
  end.

Definition colorName (c : PieceColor) : string :=
  match c with white => "white" | black => "black" end.

Definition pieceToJSON (p : Piece) : json :=
  JObject [("type"%string, JString (typeName (type p)));
           ("color"%string, JString (colorName (color p)))].

Definition cellToJSON (c : Cell) : json :=
  match c with
  | None => JNull
  | Some p => pieceToJSON p
  end.

Definition boardToJSON (b : Board) : json :=
  JArray (map (fun row => JArray (map cellToJSON row)) b).

(** [{ board, currentPlayer, moveHistory }] (lines 170-174) *)
Definition gameStateToJSON (st : State) : json :=
  JObject [("board"%string, boardToJSON (board st));
           ("currentPlayer"%string, JString (colorName (currentPlayer st)));
           ("moveHistory"%string, JArray (map JString (moveHistory st)))].

(** The way back: [None] when the value is not of the declared type. *)
Definition typeOfName (s : string) : option PieceType :=
  List.find (fun t => String.eqb (typeName t) s)
            [pawn; rook; knight; bishop; queen; king].

Definition colorOfName (s : string) : option PieceColor :=
  List.find (fun c => String.eqb (colorName c) s) [white; black].

(** [obj[k]] on a parsed object: of several properties of one name
    [JSON.parse] keeps the last. *)
Definition getField (k : string) (fields : list (string * json)) : option json :=
  snd <$> List.find (fun f => String.eqb f.1 k) (rev fields).

Definition stringOfJSON (j : json) : option string :=
  match j with JString s => Some s | _ => None end.

Definition cellOfJSON (j : json) : option Cell :=
  match j with
  | JNull => Some None
  | JObject fields =>
      if (length fields =? 2)%nat then
        match (getField "type" fields ≫= stringOfJSON) ≫= typeOfName,
              (getField "color" fields ≫= stringOfJSON) ≫= colorOfName with
        | Some t, Some c => Some (Some (mkPiece t c))
        | _, _ => None
        end
      else None
  | _ => None
  end.

Definition rowOfJSON (j : json) : option Row :=
  match j with JArray cells => mapM cellOfJSON cells | _ => None end.

Definition boardOfJSON (j : json) : option Board :=
  match j with JArray rows => mapM rowOfJSON rows | _ => None end.

Definition historyOfJSON (j : json) : option (list string) :=
  match j with JArray entries => mapM stringOfJSON entries | _ => None end.

(** ** [saveGame] and [loadGame] (lines 169-186)

    [localStorage] is a map from keys to strings; a write is taken to
    succeed (no quota is modelled). *)

Definition storageKey : string := "savedChessGame".

Definition saveGame (st : State) (localStorage : gmap string string) : gmap string string :=
  <[storageKey := JSON_stringify (gameStateToJSON st)]> localStorage.

Definition loadGame (st : State) (localStorage : gmap string string) : result State :=
  match localStorage !! storageKey with
  | None => Ok st
  | Some EmptyString => Ok st
  | Some savedGame =>
      j ← JSON_parse savedGame;
      match j with
      | JNull => Err TypeError
      | JObject fields =>
          match getField "board" fields ≫= boardOfJSON,
                (getField "currentPlayer" fields ≫= stringOfJSON) ≫= colorOfName,
                getField "moveHistory" fields ≫= historyOfJSON with
          | Some b, Some c, Some h =>
              Ok (setMoveHistory h (setCurrentPlayer c (setBoard b st)))
          | _, _, _ => Err Unmodelled
          end
      | _ => Err Unmodelled
      end
  end.

(** ** A click followed by the re-render

    After a click the component renders again, and the effect of lines
    53-59 runs when [selectedSquare] has changed.  The timer of line 115 is
    not run here. *)
Definition click (st : State) (sq : nat * nat) : result State :=
  r ← handleSquareClick st sq.1 sq.2;
  if decide (selectedSquare r.1 = selectedSquare st) then Ok r.1
  else selectionEffect r.1.

Fixpoint clicks (st : State) (sqs : list (nat * nat)) : result State :=
  match sqs with
  | [] => Ok st
  | sq :: rest => st' ← click st sq; clicks st' rest
  end.

(** ** Notions of the specification that the source does not define *)

(** The sixty-four squares, rank by rank. *)
Definition squares : list Square :=
  flat_map (fun i => map (fun j => (i, j)) (seqZ 0 8)) (seqZ 0 8).

Definition pieceAt (b : Board) (sq : Square) : Cell := getCellOpt b sq.1 sq.2.

(** Modelled from the spec: [isSquareAttacked(square, byColor)], which the
    source does not have.  The spec computes it "by checking, for every
    opponent piece, whether a pseudo-legal move (ignoring check safety)
    could land on [square]"; the pseudo-legal generator is the source's
    [getAvailableMoves]. *)
Definition isSquareAttacked (st : State) (sq : Square) (byColor : PieceColor) : bool :=
  existsb
    (fun from =>
       colorIs (pieceAt (board st) from) byColor
       && match getAvailableMoves st from.1 from.2 with
          | Ok ms => existsb (sameSquare sq.1 sq.2) ms
          | Err _ => false
          end)
    squares.

(** The square of the king of colour [c], if there is one. *)
Definition kingSquare (b : Board) (c : PieceColor) : option Square :=
  List.find (fun sq => bool_decide (pieceAt b sq = Some (mkPiece king c))) squares.

(** The number of kings of colour [c] on the board. *)
Definition kingCount (b : Board) (c : PieceColor) : nat :=
  length (List.filter (fun cell => bool_decide (cell = Some (mkPiece king c))) (concat b)).

(** ** Positions used in the examples *)

Definition emptyBoard : Board := replicate 8 (replicate 8 None).

Definition place (b : Board) (r c : nat) (p : Piece) : Board :=
  match b !! r with
  | Some row => <[r := <[c := Some p]> row]> b
  | None => b
  end.

(** What it means for [m] to be a move the generator gives for a black
    piece on [(i, j)]. *)
Definition blackMove (st : State) (i j : Z) (m : Square) : Prop :=
  colorOf (pieceAt (board st) (i, j)) = Some black
  /\ exists ms, getAvailableMoves st i j = Ok ms /\ In m ms.

(** The rows [rows] of the store [h] hold the ranks [v]. *)
Definition rowsHold (h : Mem.heap) (rows : list Mem.loc) (v : Board) : Prop :=
  Forall2 (fun l cells => h !! l = Some (Mem.ORow cells)) rows v.

(** A value read in a state that expects one is delivered to the
    innermost open array or object. *)
Definition parsesBack (j : json) : Prop :=
  forall stk rest, run (PValue stk) (tokens j ++ rest) = run (deliver j stk) rest.

(** White king e1, black king e8, a black pawn on d2 giving check, a white
    pawn on a2; white to move. *)
Definition checkPosition : Board :=
  place (place (place (place emptyBoard 7 4 (mkPiece king white))
                  0 4 (mkPiece king black))
           6 3 (mkPiece pawn black))
    6 0 (mkPiece pawn white).

Definition checkState : State := setBoard checkPosition initialState.

(** The same without the checking pawn. *)
Definition quietPosition : Board :=
  place (place (place emptyBoard 7 4 (mkPiece king white))
           0 4 (mkPiece king black))
    6 0 (mkPiece pawn white).

(** A white pawn on e2 with a black knight in front of it on e3. *)
Definition blockedPawnPosition : Board :=
  place (place emptyBoard 6 4 (mkPiece pawn white)) 5 4 (mkPiece knight black).

(** The two kings missing. *)
Definition kinglessState : State :=
  setMoveHistory ["6,4 to 4,4"%string]
    (setCurrentPlayer black
       (setBoard (place (place emptyBoard 4 4 (mkPiece pawn white))
                    1 4 (mkPiece pawn black))
          initialState)).

(** ** The chat (lines 48-49 and 162-167)

    [messages] and [newMessage] are state cells of their own; [sendMessage]
    reads and sets these two only. *)

Record Chat : Type := mkChat {
  messages : list string;
  newMessage : string
}.

(** The code units below 256 that [String.prototype.trim] strips: tab,
    line feed, vertical tab, form feed, carriage return, space and the
    no-break space. *)
Definition isTrimSpace (c : ascii) : bool :=
  let n := N_of_ascii c in
  ((9 <=? n)%N && (n <=? 13)%N) || (n =? 32)%N || (n =? 160)%N.

Fixpoint trimStart (s : string) : string :=
  match s with
  | EmptyString => EmptyString
  | String c rest => if isTrimSpace c then trimStart rest else s
  end.

(** [s.trimEnd()]: a character stays when it is not white space or when
    something stays after it. *)
Fixpoint trimEnd (s : string) : string :=
  match s with
  | EmptyString => EmptyString
  | String c rest =>
      match trimEnd rest with
      | EmptyString => if isTrimSpace c then EmptyString else String c EmptyString
      | kept => String c kept
      end
  end.

(** [s.trim()] *)
Definition trim (s : string) : string := trimEnd (trimStart s).

(** The truth value of a string: every string but the empty one. *)
Definition truthy (s : string) : bool :=
  match s with EmptyString => false | String _ _ => true end.

Definition sendMessage (chat : Chat) : Chat :=
  if truthy (trim (newMessage chat))
  then {| messages := messages chat ++ [newMessage chat]; newMessage := EmptyString |}
  else chat.

(** A string of white space only (the empty string included). *)
Definition isBlank (s : string) : bool :=
  forallb isTrimSpace (list_ascii_of_string s).

(** ** The colour of a rendered square (line 210) *)

Inductive Shade : Set := light | dark.

(** [(rowIndex + colIndex) % 2 === 0 ? 'bg-amber-200' : 'bg-amber-800'] *)
Definition squareShade (rowIndex colIndex : nat) : Shade :=
  if ((rowIndex + colIndex) mod 2 =? 0)%nat then light else dark.

(** [availableMoves.some(([r, c]) => r === rowIndex && c === colIndex)],
    the test that paints a square green (line 212). *)
Definition highlighted (st : State) (rowIndex colIndex : nat) : bool :=
  existsb (sameSquare (Z.of_nat rowIndex) (Z.of_nat colIndex)) (availableMoves st).

(** ** Predicates on states and boards *)

(** The lengths of the ranks. *)
Definition shape (b : Board) : list nat := map length b.

(** The square [(row, col)] is an element of the board: one of the squares
    that are rendered and can be clicked. *)
Definition rendered (b : Board) (row col : nat) : Prop :=
  exists cells, b !! row = Some cells /\ (col < length cells)%nat.

(** What the effect of lines 53-59 establishes: with nothing selected no
    move is highlighted; with a square selected, it holds a piece of the
    player to move and the highlighted moves are those computed for it
    when nothing was highlighted. *)
Definition coherent (st : State) : Prop :=
  match selectedSquare st with
  | None => availableMoves st = []
  | Some (r, c) =>
      colorOf (pieceAt (board st) (Z.of_nat r, Z.of_nat c)) = Some (currentPlayer st)
      /\ getAvailableMoves (setAvailableMoves [] st) (Z.of_nat r) (Z.of_nat c)
         = Ok (availableMoves st)
  end.

(** White moves when the history has an even number of entries. *)
Definition turnMatchesHistory (st : State) : Prop :=
  currentPlayer st = if Nat.even (length (moveHistory st)) then white else black.

(** The pawn on e2 selected in the starting position, after the effect. *)
Definition e2Selected : State :=
  setAvailableMoves [(5, 4); (4, 4); (5, 3); (5, 5)]
    (setSelectedSquare (Some (6, 4)%nat) initialState).

(** The squares the rook loop has pushed before iteration [i] lie at a
    distance below [i] from the rook. *)
Definition within (row col i : Z) (m : Square) : Prop :=
  Z.abs (m.1 - row) + Z.abs (m.2 - col) < i.

(** The source squares of the entries listed so far come before [(i, j)]
    in the order of the two loops. *)
Definition sourcesBefore (i j : Z) (acc : list Move) : Prop :=
  forall a b m, In ((a, b), m) acc -> a < i \/ (a = i /\ b < j).

(** A board of [w + k] ranks of eight squares with exactly [w] white kings
    and [k] black kings, one to a rank. *)
Definition boardWithKings (w k : nat) : Board :=
  (replicate w (Some (mkPiece king white) :: replicate 7 None)
   ++ replicate k (Some (mkPiece king black) :: replicate 7 None))%list.

(* ================================================================== *)
(** * Properties *)
(* ================================================================== *)

(** ** The embedding on concrete inputs *)

Example pawn_e2 :
  getAvailableMoves initialState 6 4 = Ok [(5, 4); (4, 4); (5, 3); (5, 5)].
Proof. reflexivity. Qed.

Example rook_a1 : getAvailableMoves initialState 7 0 = Err TypeError.
Proof. reflexivity. Qed.

Example history_e2e4 : historyEntry 6 4 4 4 = "6,4 to 4,4"%string.
Proof. reflexivity. Qed.

Example black_first_moves :
  (length <$> possibleMoves initialState) = Ok 30%nat.
Proof. vm_compute. reflexivity. Qed.

Example initialHeap_value :
  Mem.boardValue Mem.initialHeap Mem.initialBoardRef = Some initialBoard.
Proof. vm_compute. reflexivity. Qed.

Example heap_move_e2e4 :
  (λ hb, Mem.boardValue hb.1 hb.2) <$>
    Mem.movePiece Mem.initialHeap Mem.initialBoardRef 6 4 4 4
  = Some <$> movePiece initialBoard 6 4 4 4.
Proof. vm_compute. reflexivity. Qed.

Example stringify_piece :
  JSON_stringify (JArray [JNull; JObject [("type", JString "pawn"); ("color", JString "white")]%string])
  = String "[" ("null,{" ++ String quoteChar ("type" ++ String quoteChar (":" ++ String quoteChar ("pawn" ++
    String quoteChar ("," ++ String quoteChar ("color" ++ String quoteChar (":" ++ String quoteChar ("white" ++
    String quoteChar "}]"))))))))%string.
Proof. vm_compute. reflexivity. Qed.

Example parse_ws :
  JSON_parse (" [ null , " ++ String quoteChar ("aA" ++ String backslash ("n" ++ String quoteChar " ] ")))%string
  = Ok (JArray [JNull; JString (String "a" (String "A" (String (ascii_of_N 10) EmptyString)))]).
Proof. vm_compute. reflexivity. Qed.

(** ** Reading the board *)

Section Reads.
Context (b : Board).

Lemma index_Some {A : Type} (l : list A) (i : Z) (x : A) :
  index l i = Some x -> 0 <= i < Z.of_nat (length l).
Proof.
  unfold index. destruct (Z.ltb_spec i 0) as [Hneg | Hpos]; [discriminate |].
  intros Hx. apply lookup_lt_Some in Hx. lia.
Qed.

Lemma index_None {A : Type} (l : list A) (i : Z) :
  i < 0 \/ Z.of_nat (length l) <= i -> index l i = None.
Proof.
  unfold index. destruct (Z.ltb_spec i 0) as [Hneg | Hpos]; [reflexivity |].
  intros [Hlt | Hge]; [lia |]. apply lookup_ge_None. lia.
Qed.

Lemma getCell_Ok_row (r c : Z) (cell : Cell) :
  getCell b r c = Ok cell -> exists row, index b r = Some row.
Proof. unfold getCell. destruct (index b r); [eauto | discriminate]. Qed.

Lemma getCell_row (r c : Z) (row : Row) :
  index b r = Some row -> getCell b r c = Ok (mjoin (index row c)).
Proof. unfold getCell. intros ->. reflexivity. Qed.

Lemma getCell_missing_row (r c : Z) :
  index b r = None -> getCell b r c = Err TypeError.
Proof. unfold getCell. intros ->. reflexivity. Qed.

Lemma getCell_getCellOpt (r c : Z) (cell : Cell) :
  getCell b r c = Ok cell -> getCellOpt b r c = cell.
Proof.
  unfold getCell, getCellOpt. destruct (index b r); [| discriminate].
  intros [= <-]. reflexivity.
Qed.
End Reads.

(** ** [isValidMove] *)

Lemma isValidMove_error st from to e :
  isValidMove st from to = Err e -> e = TypeError.
Proof.
  destruct from as [fr fc], to as [tr tc]. unfold isValidMove, getCell.
  destruct (index (board st) fr) as [rowF |]; simpl; [| congruence].
  destruct (mjoin (index rowF fc)) as [p |]; [| discriminate].
  destruct (negb _); [discriminate |].
  destruct (index (board st) tr) as [rowT |]; simpl; [| congruence].
  destruct (colorIs _ _); discriminate.
Qed.

Lemma isValidMove_not_mine st fr fc to p :
  getCell (board st) fr fc = Ok (Some p) -> color p <> currentPlayer st ->
  isValidMove st (fr, fc) to = Ok false.
Proof.
  intros Hp Hc. destruct to as [tr tc]. unfold isValidMove. rewrite Hp. simpl.
  rewrite bool_decide_eq_false_2 by assumption. reflexivity.
Qed.

Lemma isValidMove_empty_source st fr fc to :
  getCell (board st) fr fc = Ok None -> isValidMove st (fr, fc) to = Ok false.
Proof. intros Hp. destruct to. unfold isValidMove. rewrite Hp. reflexivity. Qed.

Lemma isValidMove_mine st fr fc tr tc p :
  getCell (board st) fr fc = Ok (Some p) -> color p = currentPlayer st ->
  isValidMove st (fr, fc) (tr, tc) =
    (dest ← getCell (board st) tr tc;
     if colorIs dest (currentPlayer st) then Ok false
     else Ok (existsb (sameSquare tr tc) (availableMoves st))).
Proof.
  intros Hp Hc. unfold isValidMove. rewrite Hp. simpl.
  rewrite bool_decide_eq_true_2 by assumption. reflexivity.
Qed.

Lemma isValidMove_true st fr fc tr tc :
  isValidMove st (fr, fc) (tr, tc) = Ok true ->
  (exists p, getCell (board st) fr fc = Ok (Some p) /\ color p = currentPlayer st)
  /\ (exists dest, getCell (board st) tr tc = Ok dest
                   /\ colorOf dest <> Some (currentPlayer st))
  /\ In (tr, tc) (availableMoves st).
Proof.
  unfold isValidMove.
  destruct (getCell (board st) fr fc) as [[p |] |] eqn:Hp; simpl; try discriminate.
  destruct (bool_decide_reflect (color p = currentPlayer st)) as [Hc | Hc];
    simpl; [| discriminate].
  destruct (getCell (board st) tr tc) as [dest |] eqn:Hd; simpl; [| discriminate].
  unfold colorIs.
  destruct (bool_decide_reflect (colorOf dest = Some (currentPlayer st))) as [Hf | Hf];
    [discriminate |].
  intros [= Hex]. split; [eauto |]. split; [eauto |].
  apply existsb_exists in Hex as [[r c] [Hin Hsame]].
  unfold sameSquare in Hsame. apply andb_true_iff in Hsame as [Hr Hcc].
  apply Z.eqb_eq in Hr, Hcc. subst. exact Hin.
Qed.

(** C10.  When the source square lies on the board and is empty or holds a
    piece of the opponent, or when the destination holds a piece of the
    current player, [isValidMove] returns [false]; a click on that
    destination with that source selected is then not accepted: it only
    clears the selection. *)
Theorem isValidMove_rejects (st : State) (fromRow fromCol toRow toCol : Z) (src : Cell) :
  getCell (board st) fromRow fromCol = Ok src ->
  (src = None
   \/ (exists p, src = Some p /\ color p <> currentPlayer st)
   \/ (exists q, getCell (board st) toRow toCol = Ok (Some q)
                 /\ color q = currentPlayer st)) ->
  isValidMove st (fromRow, fromCol) (toRow, toCol) = Ok false
  /\ forall s0 s1 row col : nat,
       selectedSquare st = Some (s0, s1) ->
       Z.of_nat s0 = fromRow -> Z.of_nat s1 = fromCol ->
       Z.of_nat row = toRow -> Z.of_nat col = toCol ->
       handleSquareClick st row col = Ok (setSelectedSquare None st, false).
Proof.
  intros Hsrc Hbad.
  assert (Hfalse : isValidMove st (fromRow, fromCol) (toRow, toCol) = Ok false).
  { destruct Hbad as [-> | [(p & -> & Hp) | (q & Hq & Hmine)]].
    - now apply isValidMove_empty_source.
    - now apply isValidMove_not_mine with p.
    - destruct src as [p |]; [| now apply isValidMove_empty_source].
      destruct (decide (color p = currentPlayer st)) as [Hc | Hc];
        [| now apply isValidMove_not_mine with p].
      rewrite (isValidMove_mine st _ _ _ _ p Hsrc Hc), Hq. simpl.
      unfold colorIs, colorOf. simpl. rewrite Hmine.
      rewrite bool_decide_eq_true_2 by reflexivity. reflexivity. }
  split; [exact Hfalse |].
  intros s0 s1 row col Hsel <- <- <- <-.
  unfold handleSquareClick. rewrite Hsel, Hfalse. reflexivity.
Qed.

Lemma isValidMove_rejects_witness :
  isValidMove initialState (6, 4) (7, 4) = Ok false.
Proof.
  apply (isValidMove_rejects initialState 6 4 7 4 (Some (mkPiece pawn white))).
  - reflexivity.
  - right. right. exists (mkPiece king white). split; reflexivity.
Defined.

(** An accepted click moves a piece of the current player onto a square
    that holds no piece of the current player. *)
Lemma handleSquareClick_accepted st row col st' timer :
  handleSquareClick st row col = Ok (st', timer) ->
  moveHistory st' <> moveHistory st ->
  exists s0 s1 p,
    selectedSquare st = Some (s0, s1)
    /\ pieceAt (board st) (Z.of_nat s0, Z.of_nat s1) = Some p
    /\ color p = currentPlayer st
    /\ colorOf (pieceAt (board st) (Z.of_nat row, Z.of_nat col)) <> Some (currentPlayer st)
    /\ movePiece (board st) s0 s1 row col = Ok (board st').
Proof.
  unfold handleSquareClick. intros Hclick Hhist.
  destruct (selectedSquare st) as [[s0 s1] |] eqn:Hsel.
  - destruct (isValidMove st _ _) as [[] |] eqn:Hv; simpl in Hclick.
    + destruct (movePiece (board st) s0 s1 row col) as [nb |] eqn:Hmv;
        simpl in Hclick; [| discriminate].
      injection Hclick as <- <-.
      apply isValidMove_true in Hv as ((p & Hp & Hc) & (dest & Hd & Hnf) & _).
      exists s0, s1, p. unfold pieceAt. simpl.
      rewrite (getCell_getCellOpt _ _ _ _ Hp), (getCell_getCellOpt _ _ _ _ Hd).
      auto.
    + injection Hclick as <- <-. now destruct Hhist.
    + discriminate.
  - destruct (getCell _ _ _) as [cell |]; simpl in Hclick; [| discriminate].
    destruct (_ && _); injection Hclick as <- <-; now destruct Hhist.
Qed.

(** ** The rook arm *)

Lemma forLoop_const {S : Type} (body : Z -> S -> result S) (n : nat) (i : Z) (s : S) :
  (forall j s', body j s' = Ok s') -> forLoop n i body s = Ok s.
Proof.
  intros Hbody. revert i. induction n as [| n IH]; intros i; simpl.
  - reflexivity.
  - rewrite Hbody. simpl. apply IH.
Qed.

Lemma forLoop_throws {S : Type} (body : Z -> S -> result S) (n : nat) (i k : Z) (s : S) :
  (forall j s' e, body j s' = Err e -> e = TypeError) ->
  (forall s', body k s' = Err TypeError) ->
  i <= k < i + Z.of_nat n ->
  forLoop n i body s = Err TypeError.
Proof.
  intros Herr Hk. revert i s. induction n as [| n IH]; intros i s Hrange; simpl.
  - lia.
  - destruct (body i s) as [s' |] eqn:Hb; simpl.
    + apply IH. destruct (decide (i = k)) as [-> | Hne]; [| lia].
      rewrite Hk in Hb. discriminate.
    + f_equal. eauto.
Qed.

Lemma bind_Err {A B : Type} (m : result A) (k : A -> result B) (e : exn) :
  m ≫= k = Err e -> m = Err e \/ exists a, m = Ok a /\ k a = Err e.
Proof.
  destruct m as [a | e']; simpl; intros H; [right; eauto | left; congruence].
Qed.

Lemma bind_Ok {A B : Type} (m : result A) (k : A -> result B) (b : B) :
  m ≫= k = Ok b -> exists a, m = Ok a /\ k a = Ok b.
Proof. destruct m as [a | e']; simpl; intros H; [eauto | discriminate]. Qed.

Lemma rookStep_error st row col i moves e :
  rookStep st row col i moves = Err e -> e = TypeError.
Proof.
  unfold rookStep. intros H.
  do 4 (apply bind_Err in H as [H | (? & _ & H)];
        [exact (isValidMove_error _ _ _ _ H) |]).
  discriminate.
Qed.

Section RookOfTheMover.
Context (st : State) (row col : Z) (p : Piece).
Context (Hp : getCell (board st) row col = Ok (Some p)).

Lemma rookStep_not_mine i moves :
  color p <> currentPlayer st -> rookStep st row col i moves = Ok moves.
Proof.
  intros Hc. unfold rookStep.
  rewrite !(isValidMove_not_mine st row col _ p Hp Hc). reflexivity.
Qed.

Lemma rookStep_off_rows i moves :
  color p = currentPlayer st ->
  index (board st) (row + i) = None \/ index (board st) (row - i) = None ->
  rookStep st row col i moves = Err TypeError.
Proof.
  intros Hc Hmiss. unfold rookStep.
  rewrite !(isValidMove_mine st row col _ _ p Hp Hc).
  destruct (index (board st) (row + i)) as [rowA |] eqn:HA.
  - destruct Hmiss as [? | HB]; [discriminate |].
    rewrite (getCell_row _ _ _ _ HA). simpl.
    rewrite (getCell_missing_row _ _ _ HB).
    destruct (colorIs _ _); reflexivity.
  - rewrite (getCell_missing_row _ _ _ HA). reflexivity.
Qed.

(** On a board of at most eight ranks the rook loop returns nothing for
    a rook that is not the current player's, and throws for one that is:
    some [row + i] or [row - i] with [1 <= i <= 7] is not a rank. *)
Lemma rook_loop_outcome :
  (length (board st) <= 8)%nat ->
  forLoop 7 1 (rookStep st row col) [] =
    if decide (color p = currentPlayer st) then Err TypeError else Ok [].
Proof.
  intros Hlen. destruct (decide _) as [Hc | Hc].
  - destruct (getCell_Ok_row _ _ _ _ Hp) as [r Hr].
    apply index_Some in Hr.
    destruct (decide (row = 0)) as [Hrow | Hrow].
    + apply forLoop_throws with (k := 1); [apply rookStep_error | | lia].
      intros s'. apply rookStep_off_rows; [exact Hc |].
      right. apply index_None. lia.
    + apply forLoop_throws with (k := Z.of_nat (length (board st)) - row);
        [apply rookStep_error | | lia].
      intros s'. apply rookStep_off_rows; [exact Hc |].
      left. apply index_None. lia.
  - apply forLoop_const. intros j s'. now apply rookStep_not_mine.
Qed.
End RookOfTheMover.

(** On a board of at most eight ranks [getAvailableMoves] never returns a
    destination for a rook. *)
Lemma rook_generates_nothing st row col p :
  (length (board st) <= 8)%nat ->
  getCell (board st) row col = Ok (Some p) -> type p = rook ->
  getAvailableMoves st row col =
    if decide (color p = currentPlayer st) then Err TypeError else Ok [].
Proof.
  intros Hlen Hp Ht. unfold getAvailableMoves. rewrite Hp.
  cbn [mbind result_bind]. rewrite Ht.
  rewrite (rook_loop_outcome st row col p Hp Hlen).
  destruct (decide _); reflexivity.
Qed.

(** C8.  On a board of at most eight ranks the result of
    [getAvailableMoves] for a square is a function of the position alone,
    the board and the side to move: two states of the component with the
    same position give the same result, whatever the rest of the state (the
    selection, the moves highlighted before, the history). *)
Theorem getAvailableMoves_deterministic (st1 st2 : State) (row col : Z) :
  board st1 = board st2 ->
  currentPlayer st1 = currentPlayer st2 ->
  (length (board st1) <= 8)%nat ->
  getAvailableMoves st1 row col = getAvailableMoves st2 row col.
Proof.
  intros Hb Hc Hlen.
  destruct (getCell (board st1) row col) as [[p |] |] eqn:Hp.
  - destruct (type p) eqn:Ht.
    2:{ rewrite (rook_generates_nothing st1 row col p Hlen Hp Ht).
        rewrite Hb in Hp, Hlen.
        rewrite (rook_generates_nothing st2 row col p Hlen Hp Ht).
        rewrite Hc. reflexivity. }
    all: unfold getAvailableMoves; rewrite <- Hb, Hp; simpl; rewrite Ht;
      reflexivity.
  - unfold getAvailableMoves. rewrite <- Hb, Hp. reflexivity.
  - unfold getAvailableMoves. rewrite <- Hb, Hp. reflexivity.
Qed.

Lemma getAvailableMoves_deterministic_witness :
  getAvailableMoves initialState 1 3
  = getAvailableMoves
      (setMoveHistory ["6,4 to 4,4"%string]
         (setAvailableMoves [(5, 4); (4, 4)] (setSelectedSquare (Some (1, 3)%nat) initialState)))
      1 3.
Proof.
  apply getAvailableMoves_deterministic.
  - reflexivity.
  - reflexivity.
  - simpl. lia.
Defined.

(** Whatever [getAvailableMoves] returns has passed the filter of line 91. *)
Lemma getAvailableMoves_filtered (st : State) (row col : Z) (ms : list Square) (m : Square) :
  getAvailableMoves st row col = Ok ms -> In m ms -> onBoard m = true.
Proof.
  unfold getAvailableMoves. intros Hms Hin.
  apply bind_Ok in Hms as ([p |] & _ & Hms).
  - apply bind_Ok in Hms as (moves & _ & Hms). simplify_eq.
    now apply filter_In in Hin as [_ Hon].
  - simplify_eq. destruct Hin.
Qed.

Lemma onBoard_range (r c : Z) : onBoard (r, c) = true -> 0 <= r <= 7 /\ 0 <= c <= 7.
Proof.
  unfold onBoard. intros Hon.
  repeat (apply andb_true_iff in Hon as [Hon ?]). lia.
Qed.

(** C9.  Every destination [getAvailableMoves] returns has its rank and
    its file in [0, 7]. *)
Theorem getAvailableMoves_on_board (st : State) (row col : Z) (ms : list Square) (r c : Z) :
  getAvailableMoves st row col = Ok ms ->
  In (r, c) ms ->
  0 <= r <= 7 /\ 0 <= c <= 7.
Proof.
  intros Hms Hin. apply onBoard_range.
  exact (getAvailableMoves_filtered st row col ms (r, c) Hms Hin).
Qed.

Lemma getAvailableMoves_on_board_witness : 0 <= 5 <= 7 /\ 0 <= 3 <= 7.
Proof.
  apply (getAvailableMoves_on_board initialState 6 4 [(5, 4); (4, 4); (5, 3); (5, 5)]).
  - reflexivity.
  - simpl. right. right. left. reflexivity.
Defined.

(** ** The pawn arm *)

(** C2.  From the starting position [getAvailableMoves] gives the pawn on
    e2 four destinations: e3, e4 and the two diagonal squares d3 and f3,
    which are empty. *)
Theorem pawn_moves_onto_empty_diagonals :
  getAvailableMoves initialState 6 4 = Ok [(5, 4); (4, 4); (5, 3); (5, 5)]
  /\ pieceAt initialBoard (5, 3) = None
  /\ pieceAt initialBoard (5, 5) = None.
Proof. repeat split. Qed.

(** The two-square advance tests the destination only: the pawn on e2
    reaches e4 over the knight on e3. *)
Lemma pawn_jumps_over_blocker :
  pieceAt blockedPawnPosition (5, 4) = Some (mkPiece knight black)
  /\ getAvailableMoves (setBoard blockedPawnPosition initialState) 6 4
     = Ok [(4, 4); (5, 3); (5, 5)].
Proof. split; reflexivity. Qed.

(** What the diagonal test of lines 77-78 admits: every square that does
    not hold a piece of the pawn's own colour. *)
Lemma In_pushIf (cond : bool) (sq x : Square) (moves : list Square) :
  In x (pushIf cond sq moves) <-> In x moves \/ (cond = true /\ x = sq).
Proof.
  unfold pushIf. destruct cond.
  - rewrite in_app_iff. simpl. intuition congruence.
  - intuition congruence.
Qed.

Lemma pawn_diagonal_rule b row col c dc :
  dc = -1 \/ dc = 1 ->
  In (row + direction c, col + dc) (pawnMoves b row col c) <->
  colorOf (getCellOpt b (row + direction c) (col + dc)) <> Some c.
Proof.
  intros Hdc. unfold pawnMoves.
  replace (col - 1) with (col + -1) by lia.
  destruct ((row =? 1) && bool_decide (c = black) || (row =? 6) && bool_decide (c = white));
    rewrite !In_pushIf; simpl In;
    unfold colorIsNot, colorIs; rewrite !negb_true_iff, !bool_decide_eq_false;
    destruct Hdc as [-> | ->];
    (split;
     [ intros [[[[[] | [_ Heq]] | [_ Heq]] | [Hc Heq]] | [Hc Heq]]
     || intros [[[[] | [_ Heq]] | [Hc Heq]] | [Hc Heq]]
     | intros Hc ]);
    try (injection Heq; lia); try exact Hc; auto.
Qed.

(** ** The rook arm at work *)

(** C3.  After 1. a4 a6 the rook on a1 has the empty squares a2 and a3 in
    front of it and its own pawn on a4; [getAvailableMoves] throws a
    [TypeError] for it.  For the black rook on a8, with a7 empty, it returns
    no destination. *)
Theorem rook_on_open_file_cannot_move :
  match clicks (setGameMode (Some multiplayer) initialState)
               [(6, 0); (4, 0); (1, 0); (2, 0)]%nat with
  | Ok st =>
      currentPlayer st = white
      /\ pieceAt (board st) (7, 0) = Some (mkPiece rook white)
      /\ pieceAt (board st) (6, 0) = None
      /\ pieceAt (board st) (5, 0) = None
      /\ pieceAt (board st) (4, 0) = Some (mkPiece pawn white)
      /\ getAvailableMoves st 7 0 = Err TypeError
      /\ click st (7, 0)%nat = Err TypeError
      /\ pieceAt (board st) (0, 0) = Some (mkPiece rook black)
      /\ pieceAt (board st) (1, 0) = None
      /\ getAvailableMoves st 0 0 = Ok []
  | Err _ => False
  end.
Proof. vm_compute. repeat split. Qed.

(** ** No filter for the safety of the king *)

(** C1, as stated, fails: in [checkPosition] the pawn move a2-a3 is among
    the computed moves, and after it the white king on e1 is still attacked
    by the black pawn on d2. *)
Lemma computed_move_leaves_king_attacked :
  getAvailableMoves checkState 6 0 = Ok [(5, 0); (4, 0); (5, 1)]
  /\ match movePiece checkPosition 6 0 5 0 with
     | Ok b' =>
         kingSquare b' white = Some (7, 4)
         /\ isSquareAttacked (setCurrentPlayer black (setBoard b' checkState))
              (7, 4) black = true
     | Err _ => False
     end.
Proof. vm_compute. repeat split. Qed.

(** C1, amended.  The moves computed for a pawn are determined by the pawn
    and by four squares: the three of the next rank ahead (same file and
    the two adjacent files) and the one two ranks ahead.  Nothing else of
    the position is looked at; in particular no test is made of whether the
    mover's king is attacked after the move. *)
Theorem pawn_moves_look_only_ahead (st1 st2 : State) (row col : Z) (p : Piece) :
  type p = pawn ->
  getCell (board st1) row col = Ok (Some p) ->
  getCell (board st2) row col = Ok (Some p) ->
  getCellOpt (board st1) (row + direction (color p)) col
    = getCellOpt (board st2) (row + direction (color p)) col ->
  getCellOpt (board st1) (row + direction (color p)) (col - 1)
    = getCellOpt (board st2) (row + direction (color p)) (col - 1) ->
  getCellOpt (board st1) (row + direction (color p)) (col + 1)
    = getCellOpt (board st2) (row + direction (color p)) (col + 1) ->
  getCellOpt (board st1) (row + 2 * direction (color p)) col
    = getCellOpt (board st2) (row + 2 * direction (color p)) col ->
  getAvailableMoves st1 row col = getAvailableMoves st2 row col.
Proof.
  intros Ht H1 H2 Hf Hl Hr Hff. unfold getAvailableMoves.
  rewrite H1, H2. cbn [mbind result_bind]. rewrite Ht.
  unfold pawnMoves. rewrite Hf, Hl, Hr, Hff. reflexivity.
Qed.

Lemma pawn_moves_look_only_ahead_witness :
  getAvailableMoves checkState 6 0
  = getAvailableMoves (setCurrentPlayer black (setBoard quietPosition initialState)) 6 0.
Proof.
  apply (pawn_moves_look_only_ahead checkState _ 6 0 (mkPiece pawn white));
    reflexivity.
Defined.

(** ** Moving a piece *)

Lemma copyBoard_id (b : Board) : copyBoard b = b.
Proof. unfold copyBoard. apply map_id. Qed.

Lemma setCell_Ok (b : Board) (r c : nat) (x : Cell) :
  (r < length b)%nat ->
  exists row, b !! r = Some row /\ setCell b r c x = Ok (<[r := assign None row c x]> b).
Proof.
  intros Hr. unfold setCell.
  destruct (b !! r) as [row |] eqn:Hrow; [exists row; split; reflexivity |].
  apply lookup_ge_None in Hrow. lia.
Qed.

Lemma setCell_length (b b' : Board) (r c : nat) (x : Cell) :
  setCell b r c x = Ok b' -> length b' = length b.
Proof.
  unfold setCell. destruct (b !! r); [| discriminate].
  intros [= <-]. apply length_insert.
Qed.

(** On ranks that exist the three lines never throw. *)
Lemma movePiece_Ok (b : Board) (fromRow fromCol toRow toCol : nat) :
  (fromRow < length b)%nat -> (toRow < length b)%nat ->
  exists newBoard, movePiece b fromRow fromCol toRow toCol = Ok newBoard.
Proof.
  intros Hf Ht. unfold movePiece. rewrite copyBoard_id.
  assert (Hidx : exists rowF, index b (Z.of_nat fromRow) = Some rowF).
  { unfold index. destruct (Z.ltb_spec (Z.of_nat fromRow) 0); [lia |].
    rewrite Nat2Z.id. destruct (b !! fromRow) as [rowF |] eqn:HrowF; [eauto |].
    apply lookup_ge_None in HrowF. lia. }
  destruct Hidx as [rowF Hidx].
  rewrite (getCell_row _ _ _ _ Hidx). cbn [mbind result_bind].
  destruct (setCell_Ok b toRow toCol (mjoin (index rowF (Z.of_nat fromCol))) Ht)
    as (rowT & _ & ->).
  cbn [mbind result_bind].
  edestruct (setCell_Ok (<[toRow := assign None rowT toCol
                                     (mjoin (index rowF (Z.of_nat fromCol)))]> b)
               fromRow fromCol None) as (row' & _ & ->).
  - now rewrite length_insert.
  - eauto.
Qed.

(** ** The computer's list of moves *)

Lemma forLoop_invariant {T : Type} (Inv : Z -> T -> Prop)
    (body : Z -> T -> result T) (n : nat) (i : Z) (s0 s : T) :
  Inv i s0 ->
  (forall j s1 s2, i <= j < i + Z.of_nat n -> Inv j s1 -> body j s1 = Ok s2 -> Inv (j + 1) s2) ->
  forLoop n i body s0 = Ok s ->
  Inv (i + Z.of_nat n) s.
Proof.
  revert i s0. induction n as [| n IH]; intros i s0 H0 Hstep; simpl.
  - intros [= <-]. now replace (i + Z.of_nat 0) with i by lia.
  - intros Hrun. apply bind_Ok in Hrun as (s1 & Hb & Hrun).
    replace (i + Z.of_nat (S n)) with (i + 1 + Z.of_nat n) by lia.
    apply (IH (i + 1) s1).
    + apply (Hstep i s0); [lia | exact H0 | exact Hb].
    + intros j s2 s3 Hj. apply Hstep. lia.
    + exact Hrun.
Qed.

Lemma forLoop_body_ran {T : Type} (body : Z -> T -> result T) (n : nat) (i : Z) (s0 s : T) :
  forLoop n i body s0 = Ok s ->
  forall j, i <= j < i + Z.of_nat n -> exists s1 s2, body j s1 = Ok s2.
Proof.
  revert i s0. induction n as [| n IH]; intros i s0; simpl.
  - intros _ j Hj. lia.
  - intros Hrun j Hj. apply bind_Ok in Hrun as (s1 & Hb & Hrun).
    destruct (decide (j = i)) as [-> | Hne]; [eauto |].
    apply (IH (i + 1) s1 Hrun). lia.
Qed.

Lemma collectSquare_spec st i j acc acc' :
  collectSquare st i j acc = Ok acc' ->
  forall a b m,
    In ((a, b), m) acc' <->
    In ((a, b), m) acc \/ (a = i /\ b = j /\ blackMove st i j m).
Proof.
  unfold collectSquare, blackMove, pieceAt. intros Hc a b m.
  apply bind_Ok in Hc as (cell & Hcell & Hc).
  apply getCell_getCellOpt in Hcell. simpl. rewrite Hcell.
  unfold colorIs in Hc.
  destruct (bool_decide_reflect (colorOf cell = Some black)) as [Hb | Hb].
  - apply bind_Ok in Hc as (ms & Hms & Hc). injection Hc as <-.
    rewrite in_app_iff, in_map_iff. split.
    + intros [Hin | (m' & Heq & Hin)]; [now left | right].
      injection Heq as <- <- <-. eauto 6.
    + intros [Hin | (-> & -> & _ & ms' & Hms' & Hin)]; [now left | right].
      rewrite Hms in Hms'. injection Hms' as <-. eauto.
  - injection Hc as <-. split; [now left |].
    intros [Hin | (_ & _ & Hb' & _)]; [exact Hin | contradiction].
Qed.

Local Ltac range_goal :=
  split; [first [reflexivity | lia] | split; [lia | assumption]].

Lemma collectRow_spec st k acc acc' :
  forLoop 8 0 (fun j => collectSquare st k j) acc = Ok acc' ->
  forall i j m,
    In ((i, j), m) acc' <->
    In ((i, j), m) acc \/ (i = k /\ 0 <= j < 8 /\ blackMove st i j m).
Proof.
  intros Hrow.
  pose (Inv := fun (l : Z) (acc2 : list Move) =>
          forall i j m,
            In ((i, j), m) acc2 <->
            In ((i, j), m) acc \/ (i = k /\ 0 <= j < l /\ blackMove st i j m)).
  assert (Hinv : Inv (0 + Z.of_nat 8) acc').
  { apply (forLoop_invariant Inv (fun j => collectSquare st k j) 8 0 acc acc');
      [| | exact Hrow].
    - intros i j m. split; [now left |].
      intros [H | (_ & Hj & _)]; [exact H | lia].
    - intros l acc1 acc2 Hl Hacc1 Hsq i j m.
      rewrite (collectSquare_spec _ _ _ _ _ Hsq), (Hacc1 i j m). split.
      + intros [[H | (-> & Hj & Hm)] | (-> & -> & Hm)]; auto.
        * right. range_goal.
        * right. range_goal.
      + intros [H | (-> & Hj & Hm)]; auto.
        destruct (decide (j = l)) as [-> | Hne];
          [right | left; right]; range_goal. }
  exact Hinv.
Qed.

Lemma possibleMoves_spec st moves :
  possibleMoves st = Ok moves ->
  forall i j m,
    In ((i, j), m) moves <-> (0 <= i < 8 /\ 0 <= j < 8 /\ blackMove st i j m).
Proof.
  unfold possibleMoves. intros Hrun.
  pose (Inv := fun (k : Z) (acc : list Move) =>
          forall i j m,
            In ((i, j), m) acc <-> (0 <= i < k /\ 0 <= j < 8 /\ blackMove st i j m)).
  assert (Hinv : Inv (0 + Z.of_nat 8) moves).
  { apply (forLoop_invariant Inv
             (fun i => forLoop 8 0 (fun j => collectSquare st i j)) 8 0 [] moves);
      [| | exact Hrun].
    - intros i j m. simpl. split; [contradiction | lia].
    - intros k acc acc' Hk Hacc Hrow i j m.
      rewrite (collectRow_spec _ _ _ _ Hrow), (Hacc i j m). split.
      + intros [(Hi & Hj & Hm) | (-> & Hj & Hm)];
          (split; [lia | split; [lia | exact Hm]]).
      + intros (Hi & Hj & Hm).
        destruct (decide (i = k)) as [-> | Hne];
          [right | left]; range_goal. }
  exact Hinv.
Qed.

(** When the double loop ends normally the board has its first eight
    ranks. *)
Lemma possibleMoves_ranks st moves :
  possibleMoves st = Ok moves -> (8 <= length (board st))%nat.
Proof.
  unfold possibleMoves. intros Hrun.
  destruct (forLoop_body_ran _ _ _ _ _ Hrun 7 ltac:(lia)) as (s1 & s2 & Hrow).
  destruct (forLoop_body_ran _ _ _ _ _ Hrow 0 ltac:(lia)) as (s3 & s4 & Hsq).
  unfold collectSquare in Hsq. apply bind_Ok in Hsq as (cell & Hcell & _).
  apply getCell_Ok_row in Hcell as [row Hrow7]. apply index_Some in Hrow7. lia.
Qed.

(** C5, as stated, fails: with a lone black king the list of moves is
    empty, and [makeComputerMove] returns normally, the state untouched. *)
Lemma computer_without_moves_raises_nothing :
  possibleMoves (setBoard quietPosition initialState) = Ok []
  /\ makeComputerMove (setBoard quietPosition initialState) 0
       (setBoard quietPosition initialState)
     = Ok (setBoard quietPosition initialState).
Proof. split; vm_compute; reflexivity. Qed.

(** ** The store: the copy is fresh, the writes go to the copy *)

Section Store.
Import Mem.

Lemma boardValue_Some h b v :
  boardValue h b = Some v <->
  exists rows, h !! b = Some (OBoard rows) /\ rowsHold h rows v.
Proof.
  unfold boardValue, rowsHold. split.
  - destruct (h !! b) as [[cells | rows] |]; try discriminate.
    intros Hm. exists rows. split; [reflexivity |].
    apply mapM_Some in Hm. eapply Forall2_impl; [exact Hm |].
    intros l cells. unfold rowValue.
    destruct (h !! l) as [[cells' | ?] |]; congruence.
  - intros (rows & -> & Hrows). apply mapM_Some.
    eapply Forall2_impl; [exact Hrows |].
    intros l cells Hl. unfold rowValue. now rewrite Hl.
Qed.

Lemma alloc_spec h o h' l :
  alloc h o = (h', l) -> h !! l = None /\ h' = <[l := o]> h.
Proof.
  unfold alloc. intros [= <- <-]. split; [| reflexivity].
  apply not_elem_of_dom, is_fresh.
Qed.

Lemma spreadRow_spec h r h' r' :
  spreadRow h r = Ok (h', r') ->
  exists cells, h !! r = Some (ORow cells)
                /\ h !! r' = None /\ h' = <[r' := ORow cells]> h.
Proof.
  unfold spreadRow. destruct (h !! r) as [[cells | ?] |]; try discriminate.
  intros Ha. assert (Ha' : alloc h (ORow cells) = (h', r')) by congruence.
  apply alloc_spec in Ha' as [Hfresh ->]. eauto.
Qed.

Lemma spreadRow_Ok h r cells :
  h !! r = Some (ORow cells) -> exists h' r', spreadRow h r = Ok (h', r').
Proof.
  intros Hr. unfold spreadRow. rewrite Hr.
  destruct (alloc h (ORow cells)) as [h' r']. eauto.
Qed.

(** The copies are new, different from each other, and equal in content
    to the rows they copy; what the store held, it still holds. *)
Lemma mapSpread_spec rows : forall h h' rows',
  mapSpread h rows = Ok (h', rows') ->
  h ⊆ h'
  /\ Forall (fun l => h !! l = None) rows'
  /\ NoDup rows'
  /\ Forall2 (fun l l' => exists cells,
                h' !! l = Some (ORow cells) /\ h' !! l' = Some (ORow cells))
       rows rows'.
Proof.
  induction rows as [| r rest IH]; intros h h' rows'; simpl.
  - intros [= <- <-]. split; [reflexivity |]. repeat split; constructor.
  - intros Hrun.
    apply bind_Ok in Hrun as ([h1 r1] & Hr & Hrun).
    apply bind_Ok in Hrun as ([h2 rest'] & Hrest & Hrun).
    simpl in *. injection Hrun as <- <-.
    apply spreadRow_spec in Hr as (cells & Hcells & Hfresh & ->).
    destruct (IH _ _ _ Hrest) as (Hsub & Hnew & Hnd & Hcopy).
    assert (Hsub1 : h ⊆ <[r1 := ORow cells]> h) by now apply insert_subseteq.
    assert (Hr1 : h2 !! r1 = Some (ORow cells)).
    { eapply lookup_weaken; [| exact Hsub]. apply lookup_insert_eq. }
    split; [| split; [| split]].
    + now transitivity (<[r1 := ORow cells]> h).
    + constructor; [exact Hfresh |].
      eapply Forall_impl; [exact Hnew |]. intros l Hl.
      exact (lookup_weaken_None _ _ _ Hl Hsub1).
    + constructor; [| exact Hnd].
      intros Hin. rewrite Forall_forall in Hnew. apply Hnew in Hin.
      rewrite lookup_insert_eq in Hin. discriminate.
    + constructor; [| exact Hcopy].
      exists cells. split; [| exact Hr1].
      eapply lookup_weaken; [| exact Hsub].
      eapply lookup_weaken; [exact Hcells | exact Hsub1].
Qed.

Lemma mapSpread_Ok rows : forall h v,
  rowsHold h rows v -> exists h' rows', mapSpread h rows = Ok (h', rows').
Proof.
  induction rows as [| r rest IH]; intros h v Hv; simpl.
  - eauto.
  - inversion Hv as [| ? cells ? v' Hr Hrest]; subst.
    destruct (spreadRow_Ok _ _ _ Hr) as (h1 & r1 & Hs). rewrite Hs.
    cbn [mbind result_bind fst snd].
    apply spreadRow_spec in Hs as (cells' & _ & Hfresh & ->).
    destruct (IH (<[r1 := ORow cells']> h) v') as (h2 & rest' & ->); [| simpl; eauto].
    eapply Forall2_impl; [exact Hrest |]. intros l c Hl.
    eapply lookup_weaken; [exact Hl | now apply insert_subseteq].
Qed.

Lemma rowsHold_weaken h h' rows v :
  h ⊆ h' -> rowsHold h rows v -> rowsHold h' rows v.
Proof.
  intros Hsub Hv. eapply Forall2_impl; [exact Hv |].
  intros l c Hl. exact (lookup_weaken _ _ _ _ Hl Hsub).
Qed.

(** [copyBoard] on a board that stands for [v]. *)
Lemma copyBoard_spec h b v :
  boardValue h b = Some v ->
  exists h' nb rows',
    copyBoard h b = Ok (h', nb)
    /\ h ⊆ h'
    /\ h !! nb = None
    /\ Forall (fun l => h !! l = None) rows'
    /\ NoDup rows'
    /\ (nb ∉ rows')
    /\ h' !! nb = Some (OBoard rows')
    /\ rowsHold h' rows' v.
Proof.
  intros Hv. apply boardValue_Some in Hv as (rows & Hb & Hrows).
  destruct (mapSpread_Ok _ _ _ Hrows) as (h1 & rows' & Hs).
  destruct (mapSpread_spec _ _ _ _ Hs) as (Hsub & Hnew & Hnd & Hcopy).
  set (nb := fresh (dom h1)).
  assert (Hfresh : h1 !! nb = None) by apply not_elem_of_dom, is_fresh.
  exists (<[nb := OBoard rows']> h1), nb, rows'.
  assert (Hsub' : h1 ⊆ <[nb := OBoard rows']> h1) by now apply insert_subseteq.
  assert (Hheld : rowsHold h1 rows' v).
  { unfold rowsHold.
    apply Forall2_same_length_lookup. split.
    - rewrite <- (Forall2_length _ _ _ Hcopy). exact (Forall2_length _ _ _ Hrows).
    - intros i l' cells Hl' Hcells.
      destruct (Forall2_lookup_r _ _ _ _ _ Hcopy Hl') as (l & Hl & cells' & Hc1 & Hc2).
      pose proof (Forall2_lookup_lr _ _ _ _ _ _ Hrows Hl Hcells) as Hh.
      eapply lookup_weaken in Hh; [| exact Hsub]. congruence. }
  split; [| split; [| split; [| split; [| split; [| split; [| split]]]]]].
  - unfold copyBoard. rewrite Hb, Hs. reflexivity.
  - now transitivity h1.
  - exact (lookup_weaken_None _ _ _ Hfresh Hsub).
  - exact Hnew.
  - exact Hnd.
  - intros Hin%list_elem_of_lookup. destruct Hin as [i Hi].
    destruct (Forall2_lookup_l _ _ _ _ _ Hheld Hi) as (cells & _ & Hc). congruence.
  - apply lookup_insert_eq.
  - eapply rowsHold_weaken; eassumption.
Qed.
End Store.

Lemma index_of_nat {A : Type} (l : list A) (n : nat) : index l (Z.of_nat n) = l !! n.
Proof.
  unfold index. destruct (Z.ltb_spec (Z.of_nat n) 0); [lia |].
  now rewrite Nat2Z.id.
Qed.

(** Reads and writes through a board reference whose rows are distinct
    objects, as they are after [copyBoard]. *)
Section CopiedBoard.
Context (h : Mem.heap) (nb : Mem.loc) (rows : list Mem.loc) (v : Board).
Context (Hnb : h !! nb = Some (Mem.OBoard rows)).
Context (Hnd : NoDup rows).
Context (Hnot : nb ∉ rows).
Context (Hheld : rowsHold h rows v).

Lemma rowOf_value (r : nat) :
  match v !! r with
  | Some cells => exists l, rows !! r = Some l /\ Mem.rowOf h nb r = Ok (l, cells)
  | None => Mem.rowOf h nb r = Err TypeError
  end.
Proof.
  unfold Mem.rowOf. rewrite Hnb.
  destruct (v !! r) as [cells |] eqn:Hv.
  - destruct (Forall2_lookup_r _ _ _ _ _ Hheld Hv) as (l & Hl & Hcells).
    exists l. rewrite Hl, Hcells. auto.
  - apply lookup_ge_None in Hv. rewrite <- (Forall2_length _ _ _ Hheld) in Hv.
    apply lookup_ge_None in Hv. now rewrite Hv.
Qed.

Lemma readCell_value (r c : nat) :
  Mem.readCell h nb r c = getCell v (Z.of_nat r) (Z.of_nat c).
Proof.
  unfold Mem.readCell, getCell. rewrite index_of_nat.
  pose proof (rowOf_value r) as Hrow.
  destruct (v !! r) as [cells |].
  - destruct Hrow as (l & _ & ->). simpl. now rewrite index_of_nat.
  - now rewrite Hrow.
Qed.

Lemma writeCell_value (r c : nat) (x : Cell) :
  match setCell v r c x with
  | Ok v' =>
      exists h',
        Mem.writeCell h nb r c x = Ok h'
        /\ h' !! nb = Some (Mem.OBoard rows)
        /\ rowsHold h' rows v'
        /\ forall l, l ∉ rows -> h' !! l = h !! l
  | Err e => Mem.writeCell h nb r c x = Err e
  end.
Proof.
  unfold setCell, Mem.writeCell.
  pose proof (rowOf_value r) as Hrow.
  destruct (v !! r) as [cells |] eqn:Hv.
  - destruct Hrow as (l & Hl & ->). simpl.
    assert (Hin : l ∈ rows) by (apply list_elem_of_lookup; eauto).
    eexists. split; [reflexivity |]. split; [| split].
    + rewrite lookup_insert_ne; [exact Hnb |]. intros ->. contradiction.
    + apply Forall2_same_length_lookup. split.
      * rewrite length_insert. exact (Forall2_length _ _ _ Hheld).
      * intros i l' cells' Hl' Hcells'.
        destruct (decide (i = r)) as [-> | Hne].
        -- rewrite list_lookup_insert_eq in Hcells'
             by (apply lookup_lt_Some in Hv; exact Hv).
           assert (l' = l) by congruence. subst l'.
           injection Hcells' as <-. apply lookup_insert_eq.
        -- rewrite list_lookup_insert_ne in Hcells' by congruence.
           rewrite lookup_insert_ne.
           ++ exact (Forall2_lookup_lr _ _ _ _ _ _ Hheld Hl' Hcells').
           ++ intros <-. apply Hne. symmetry.
              exact (NoDup_lookup _ _ _ _ Hnd Hl Hl').
    + intros l' Hl'. apply lookup_insert_ne. intros <-. contradiction.
  - now rewrite Hrow.
Qed.
End CopiedBoard.

(** The three lines against the store compute what [movePiece] computes on
    values, in a new object, and leave every object of the old store as it
    was. *)
Lemma movePiece_on_store (h : Mem.heap) (b : Mem.loc) (v : Board)
    (fromRow fromCol toRow toCol : nat) :
  Mem.boardValue h b = Some v ->
  match movePiece v fromRow fromCol toRow toCol with
  | Ok v' =>
      exists h' nb,
        Mem.movePiece h b fromRow fromCol toRow toCol = Ok (h', nb)
        /\ h !! nb = None
        /\ h ⊆ h'
        /\ Mem.boardValue h' nb = Some v'
  | Err e => Mem.movePiece h b fromRow fromCol toRow toCol = Err e
  end.
Proof.
  intros Hv.
  destruct (copyBoard_spec h b v Hv)
    as (h1 & nb & rows' & Hcopy & Hsub & Hfresh & Hnew & Hnd & Hnot & Hnb & Hheld).
  unfold movePiece, Mem.movePiece. rewrite copyBoard_id, Hcopy.
  cbn [mbind result_bind fst snd].
  rewrite (readCell_value h1 nb rows' v Hnb Hheld).
  destruct (getCell v (Z.of_nat fromRow) (Z.of_nat fromCol)) as [piece | e];
    cbn [mbind result_bind]; [| reflexivity].
  pose proof (writeCell_value h1 nb rows' v Hnb Hnd Hnot Hheld toRow toCol piece) as Hw1.
  destruct (setCell v toRow toCol piece) as [v1 | e]; cbn [mbind result_bind].
  2:{ now rewrite Hw1. }
  destruct Hw1 as (h2 & -> & Hnb2 & Hheld2 & Hframe2). cbn [mbind result_bind].
  pose proof (writeCell_value h2 nb rows' v1 Hnb2 Hnd Hnot Hheld2 fromRow fromCol None) as Hw2.
  destruct (setCell v1 fromRow fromCol None) as [v2 | e].
  2:{ now rewrite Hw2. }
  destruct Hw2 as (h3 & -> & Hnb3 & Hheld3 & Hframe3). cbn [mbind result_bind].
  exists h3, nb. split; [reflexivity |]. split; [exact Hfresh |]. split.
  - apply map_subseteq_spec. intros l o Hl.
    assert (Hout : l ∉ rows').
    { intros Hin. rewrite Forall_forall in Hnew. apply Hnew in Hin. congruence. }
    rewrite (Hframe3 l Hout), (Hframe2 l Hout).
    exact (lookup_weaken _ _ _ _ Hl Hsub).
  - apply boardValue_Some. eauto.
Qed.


Lemma movePiece_store_frame (h h' : Mem.heap) (b nb : Mem.loc) (v : Board)
    (fromRow fromCol toRow toCol : nat) :
  Mem.boardValue h b = Some v ->
  Mem.movePiece h b fromRow fromCol toRow toCol = Ok (h', nb) ->
  h ⊆ h' /\ h !! nb = None
  /\ exists v', movePiece v fromRow fromCol toRow toCol = Ok v'
                /\ Mem.boardValue h' nb = Some v'.
Proof.
  intros Hv Hmv.
  pose proof (movePiece_on_store h b v fromRow fromCol toRow toCol Hv) as Href.
  destruct (movePiece v fromRow fromCol toRow toCol) as [v' | e].
  - destruct Href as (h2 & nb2 & Hmv2 & Hfresh & Hsub & Hv').
    rewrite Hmv in Hmv2. injection Hmv2 as <- <-. eauto.
  - congruence.
Qed.

(** The store-level handlers agree with the handlers on values. *)
Lemma handleSquareClick_on_store (h h' : Mem.heap) (b b' : Mem.loc) (st : State)
    (row col : nat) :
  Mem.boardValue h b = Some (board st) ->
  Mem.handleSquareClick h b st row col = Ok (h', b') ->
  exists st' timer,
    handleSquareClick st row col = Ok (st', timer)
    /\ Mem.boardValue h' b' = Some (board st').
Proof.
  intros Hv. unfold Mem.handleSquareClick, handleSquareClick.
  destruct (selectedSquare st) as [[s0 s1] |].
  - destruct (isValidMove st _ _) as [[] | e]; cbn [mbind result_bind].
    + intros Hmv.
      destruct (movePiece_store_frame _ _ _ _ _ _ _ _ _ Hv Hmv)
        as (_ & _ & v' & -> & Hv').
      cbn [mbind result_bind]. eauto.
    + intros [= <- <-]. eauto.
    + discriminate.
  - destruct (getCell _ _ _) as [cell | e]; cbn [mbind result_bind]; [| discriminate].
    intros [= <- <-]. destruct (_ && _); eauto.
Qed.

Lemma makeComputerMove_on_store (h h' : Mem.heap) (b b' live : Mem.loc)
    (st liveState : State) (pick : nat) :
  Mem.boardValue h b = Some (board st) ->
  Mem.boardValue h live = Some (board liveState) ->
  Mem.makeComputerMove h b st pick live = Ok (h', b') ->
  exists st',
    makeComputerMove st pick liveState = Ok st'
    /\ Mem.boardValue h' b' = Some (board st').
Proof.
  intros Hv Hlive. unfold Mem.makeComputerMove, makeComputerMove.
  destruct (possibleMoves st) as [moves | e]; cbn [mbind result_bind]; [| discriminate].
  destruct (0 <? length moves)%nat.
  - destruct (moves !! pick) as [[[fromRow fromCol] [toRow toCol]] |]; [| discriminate].
    intros Hmv.
    destruct (movePiece_store_frame _ _ _ _ _ _ _ _ _ Hv Hmv)
      as (_ & _ & v' & -> & Hv').
    cbn [mbind result_bind]. eauto.
  - intros [= <- <-]. eauto.
Qed.



(** ** JSON text: what [JSON.stringify] writes, [JSON.parse] reads back *)

Lemma append_cons (c : ascii) (s t : string) :
  (String c s ++ t)%string = String c (s ++ t)%string.
Proof. reflexivity. Qed.

Lemma append_assoc (s t u : string) :
  ((s ++ t) ++ u)%string = (s ++ (t ++ u))%string.
Proof.
  induction s as [| c s IH]; [reflexivity |].
  rewrite !append_cons. now rewrite IH.
Qed.

Lemma append_nil_r (s : string) : (s ++ EmptyString)%string = s.
Proof.
  induction s as [| c s IH]; [reflexivity |].
  rewrite append_cons. now rewrite IH.
Qed.

Lemma string_of_list_ascii_snoc (l : list ascii) (c : ascii) (s : string) :
  (string_of_list_ascii (l ++ [c]) ++ s)%string
  = (string_of_list_ascii l ++ String c s)%string.
Proof.
  induction l as [| a l IH]; [reflexivity |].
  simpl app. cbn [string_of_list_ascii]. rewrite !append_cons. now rewrite IH.
Qed.

(** One escaped character is read back as the character. *)
Lemma lex_escapeChar (c : ascii) (acc : list ascii) (tail : string) :
  lex (Some acc) (escapeChar c ++ tail) = lex (Some (c :: acc)) tail.
Proof.
  destruct c as [[] [] [] [] [] [] [] []]; reflexivity.
Qed.

Lemma lex_escape (s : string) : forall (acc : list ascii) (rest : string),
  lex (Some acc) (escape s ++ String quoteChar rest)
  = cons (TString (string_of_list_ascii (rev acc) ++ s)) <$> lex None rest.
Proof.
  induction s as [| c s IH]; intros acc rest.
  - rewrite append_nil_r. reflexivity.
  - cbn [escape]. rewrite append_assoc, lex_escapeChar, IH.
    cbn [rev]. now rewrite string_of_list_ascii_snoc.
Qed.

Lemma lex_showToken (t : token) (rest : string) :
  lex None (showToken t ++ rest) = cons t <$> lex None rest.
Proof.
  destruct t as [| | | | | | | s]; try reflexivity.
  cbn [showToken]. rewrite append_cons, append_assoc, append_cons.
  change (lex None (String quoteChar (escape s ++ String quoteChar (EmptyString ++ rest))))
    with (lex (Some []) (escape s ++ String quoteChar rest)).
  now rewrite lex_escape.
Qed.

Lemma lex_render (ts : list token) : lex None (render ts) = Ok ts.
Proof.
  induction ts as [| t ts IH]; [reflexivity |].
  cbn [render foldr]. fold (render ts). rewrite lex_showToken, IH. reflexivity.
Qed.

(** Induction on JSON values, through the lists of elements and fields. *)
Lemma json_ind' (P : json -> Prop) :
  P JNull ->
  (forall s, P (JString s)) ->
  (forall elems, Forall P elems -> P (JArray elems)) ->
  (forall fields, Forall (fun f => P f.2) fields -> P (JObject fields)) ->
  forall j, P j.
Proof.
  intros Hnull Hstr Harr Hobj. fix IH 1. intros [| s | elems | fields].
  - exact Hnull.
  - apply Hstr.
  - apply Harr. induction elems as [| x xs IHxs]; constructor;
      [apply IH | exact IHxs].
  - apply Hobj. induction fields as [| [k x] fs IHfs]; constructor;
      [apply IH | exact IHfs].
Qed.

Lemma run_app (ts1 ts2 : list token) : forall st,
  run st (ts1 ++ ts2) = st' ← run st ts1; run st' ts2.
Proof.
  induction ts1 as [| t ts1 IH]; intros st; [reflexivity |].
  simpl. destruct (step st t) as [st1 |]; simpl; [apply IH | reflexivity].
Qed.

Lemma run_array_start (x : json) (stk : list frame) (rest : list token) :
  run (PArrStart stk) (tokens x ++ rest)
  = run (PValue (FArr [] :: stk)) (tokens x ++ rest).
Proof. destruct x; reflexivity. Qed.

Lemma run_elements (xs : list json) : Forall parsesBack xs ->
  forall done stk rest,
    run (PArrSep done stk)
      (flat_map (fun y => TComma :: tokens y) xs ++ TRBracket :: rest)
    = run (deliver (JArray (rev done ++ xs)) stk) rest.
Proof.
  induction 1 as [| y ys Hy _ IH]; intros done stk rest.
  - simpl. now rewrite app_nil_r.
  - cbn [flat_map]. rewrite <- !app_assoc. cbn [app run step mbind option_bind].
    rewrite Hy. cbn [deliver]. rewrite IH. cbn [rev].
    now rewrite <- app_assoc.
Qed.

Lemma run_fields (fs : list (string * json)) : Forall (fun f => parsesBack f.2) fs ->
  forall done stk rest,
    run (PObjSep done stk)
      (flat_map (fun g => TComma :: TString g.1 :: TColon :: tokens g.2) fs
         ++ TRBrace :: rest)
    = run (deliver (JObject (rev done ++ fs)) stk) rest.
Proof.
  induction 1 as [| [k y] gs Hy _ IH]; intros done stk rest.
  - simpl. now rewrite app_nil_r.
  - cbn [flat_map fst snd]. rewrite <- !app_assoc.
    cbn [app run step mbind option_bind]. cbn [fst snd] in Hy.
    rewrite Hy. cbn [deliver]. rewrite IH. cbn [rev].
    now rewrite <- app_assoc.
Qed.

Lemma tokens_parse_back (j : json) : parsesBack j.
Proof.
  induction j as [| s | elems IH | fields IH] using json_ind';
    intros stk rest; try reflexivity.
  - destruct IH as [| x xs Hx Hxs]; [reflexivity |].
    cbn [tokens]. cbn [app run step stepValue mbind option_bind].
    rewrite <- !app_assoc. rewrite run_array_start, Hx. cbn [deliver].
    cbn [app]. now rewrite (run_elements xs Hxs [x] stk rest).
  - destruct IH as [| [k x] fs Hx Hfs]; [reflexivity |].
    cbn [tokens fst snd]. cbn [app run step stepValue mbind option_bind].
    rewrite <- !app_assoc. cbn [fst snd] in Hx. rewrite Hx. cbn [deliver].
    cbn [app]. now rewrite (run_fields fs Hfs [(k, x)] stk rest).
Qed.

Lemma parseTokens_tokens (j : json) : parseTokens (tokens j) = Ok j.
Proof.
  unfold parseTokens.
  rewrite <- (app_nil_r (tokens j)), (tokens_parse_back j [] []). reflexivity.
Qed.

Lemma JSON_parse_stringify (j : json) : JSON_parse (JSON_stringify j) = Ok j.
Proof.
  unfold JSON_parse, JSON_stringify. rewrite lex_render.
  cbn [mbind result_bind]. apply parseTokens_tokens.
Qed.

(** ** Typed values survive the passage through JavaScript values *)

Lemma cellOfJSON_cellToJSON (c : Cell) : cellOfJSON (cellToJSON c) = Some c.
Proof. destruct c as [[[] []] |]; reflexivity. Qed.

Lemma rowOfJSON_row (row : Row) :
  rowOfJSON (JArray (map cellToJSON row)) = Some row.
Proof. cbn [rowOfJSON]. apply mapM_fmap_Some, cellOfJSON_cellToJSON. Qed.

Lemma boardOfJSON_boardToJSON (b : Board) : boardOfJSON (boardToJSON b) = Some b.
Proof.
  unfold boardToJSON. cbn [boardOfJSON].
  apply (mapM_fmap_Some rowOfJSON (fun row => JArray (map cellToJSON row))).
  apply rowOfJSON_row.
Qed.

Lemma colorOfName_colorName (c : PieceColor) : colorOfName (colorName c) = Some c.
Proof. destruct c; reflexivity. Qed.

Lemma historyOfJSON_history (hist : list string) :
  historyOfJSON (JArray (map JString hist)) = Some hist.
Proof. cbn [historyOfJSON]. now apply mapM_fmap_Some. Qed.

Lemma JSON_parse_empty : JSON_parse EmptyString = Err SyntaxError.
Proof. reflexivity. Qed.

(** [loadGame] when something is stored that parses to an object. *)
Lemma loadGame_object (current : State) (localStorage : gmap string string)
    (text : string) (fields : list (string * json)) :
  localStorage !! storageKey = Some text ->
  JSON_parse text = Ok (JObject fields) ->
  loadGame current localStorage =
    match getField "board" fields ≫= boardOfJSON,
          (getField "currentPlayer" fields ≫= stringOfJSON) ≫= colorOfName,
          getField "moveHistory" fields ≫= historyOfJSON with
    | Some b, Some c, Some h =>
        Ok (setMoveHistory h (setCurrentPlayer c (setBoard b current)))
    | _, _, _ => Err Unmodelled
    end.
Proof.
  intros Hstored Hparse. unfold loadGame. rewrite Hstored.
  destruct text as [| ch text'].
  - rewrite JSON_parse_empty in Hparse. discriminate.
  - rewrite Hparse. reflexivity.
Qed.

Lemma loadGame_saveGame (G current : State) (localStorage : gmap string string) :
  loadGame current (saveGame G localStorage)
  = Ok (setMoveHistory (moveHistory G)
          (setCurrentPlayer (currentPlayer G) (setBoard (board G) current))).
Proof.
  rewrite (loadGame_object current (saveGame G localStorage)
             (JSON_stringify (gameStateToJSON G))
             [("board"%string, boardToJSON (board G));
              ("currentPlayer"%string, JString (colorName (currentPlayer G)));
              ("moveHistory"%string, JArray (map JString (moveHistory G)))]).
  - change (getField "board" _) with (Some (boardToJSON (board G))).
    change (getField "currentPlayer" _)
      with (Some (JString (colorName (currentPlayer G)))).
    change (getField "moveHistory" _)
      with (Some (JArray (map JString (moveHistory G)))).
    cbn [mbind option_bind stringOfJSON].
    rewrite boardOfJSON_boardToJSON, colorOfName_colorName, historyOfJSON_history.
    reflexivity.
  - unfold saveGame. apply lookup_insert_eq.
  - apply JSON_parse_stringify.
Qed.

(** C6.  Whatever game [G] is saved, and whatever the component holds when
    [loadGame] runs afterwards, loading succeeds and the board, the side to
    move and the move history it installs are those of [G]. *)
Theorem save_then_load_restores_game
    (G current : State) (localStorage : gmap string string) :
  exists loaded,
    loadGame current (saveGame G localStorage) = Ok loaded
    /\ board loaded = board G
    /\ currentPlayer loaded = currentPlayer G
    /\ moveHistory loaded = moveHistory G.
Proof.
  eexists. split; [apply loadGame_saveGame |]. repeat split.
Qed.

(** C7, as stated, fails: a saved board without any king is loaded, no
    error is raised, and the state of the component is replaced. *)
Lemma kingless_save_is_loaded :
  kingCount (board kinglessState) white = 0%nat
  /\ kingCount (board kinglessState) black = 0%nat
  /\ loadGame initialState (saveGame kinglessState ∅)
     = Ok kinglessState
  /\ kinglessState <> initialState.
Proof.
  split; [reflexivity |]. split; [reflexivity |]. split.
  - rewrite loadGame_saveGame. reflexivity.
  - discriminate.
Qed.

(** When the stored text parses to an object whose [board],
    [currentPlayer] and [moveHistory] have the declared types, these three
    replace the current ones and the rest of the state is kept. *)
Lemma loadGame_installs_parsed_fields
    (current : State) (localStorage : gmap string string) (text : string)
    (fields : list (string * json)) (b : Board) (c : PieceColor) (hist : list string) :
  localStorage !! storageKey = Some text ->
  JSON_parse text = Ok (JObject fields) ->
  getField "board" fields ≫= boardOfJSON = Some b ->
  (getField "currentPlayer" fields ≫= stringOfJSON) ≫= colorOfName = Some c ->
  getField "moveHistory" fields ≫= historyOfJSON = Some hist ->
  loadGame current localStorage
  = Ok (setMoveHistory hist (setCurrentPlayer c (setBoard b current))).
Proof.
  intros Hstored Hparse Hb Hc Hh.
  rewrite (loadGame_object _ _ _ _ Hstored Hparse), Hb, Hc, Hh. reflexivity.
Qed.

(** With nothing stored, or the empty text, [loadGame] changes nothing. *)
Lemma loadGame_nothing_stored (current : State) (localStorage : gmap string string) :
  localStorage !! storageKey = None \/ localStorage !! storageKey = Some EmptyString ->
  loadGame current localStorage = Ok current.
Proof. unfold loadGame. intros [-> | ->]; reflexivity. Qed.

(** ** The number of ranks *)

(** Moves keep the number of ranks, so every board reached by play from
    [initialBoard] has eight. *)
Lemma movePiece_ranks (b b' : Board) (fromRow fromCol toRow toCol : nat) :
  movePiece b fromRow fromCol toRow toCol = Ok b' -> length b' = length b.
Proof.
  unfold movePiece. rewrite copyBoard_id. intros Hmv.
  apply bind_Ok in Hmv as (piece & _ & Hmv).
  apply bind_Ok in Hmv as (b1 & H1 & H2).
  apply setCell_length in H1, H2. congruence.
Qed.

Lemma handleSquareClick_ranks st row col st' timer :
  handleSquareClick st row col = Ok (st', timer) ->
  length (board st') = length (board st).
Proof.
  unfold handleSquareClick.
  destruct (selectedSquare st) as [[s0 s1] |].
  - intros H. apply bind_Ok in H as ([] & _ & H).
    + apply bind_Ok in H as (nb & Hmv & H). injection H as <- <-.
      exact (movePiece_ranks _ _ _ _ _ _ Hmv).
    + now injection H as <- <-.
  - intros H. apply bind_Ok in H as (cell & _ & H).
    destruct (_ && _); now injection H as <- <-.
Qed.

Lemma makeComputerMove_ranks closure pick live st' :
  length (board closure) = length (board live) ->
  makeComputerMove closure pick live = Ok st' ->
  length (board st') = length (board live).
Proof.
  unfold makeComputerMove. intros Hlen H.
  apply bind_Ok in H as (moves & _ & H).
  destruct (0 <? length moves)%nat.
  - destruct (moves !! pick) as [[[fromRow fromCol] [toRow toCol]] |]; [| discriminate].
    apply bind_Ok in H as (nb & Hmv & H). injection H as <-.
    simpl. rewrite (movePiece_ranks _ _ _ _ _ _ Hmv). exact Hlen.
  - now injection H as <-.
Qed.

(** On a board of fifteen ranks, which only a stored text can bring in, the
    rook loop ends normally and its result follows the moves highlighted
    before. *)
Example tall_board_rook_follows_highlights :
  let b := place (replicate 15 (replicate 8 None)) 7 0 (mkPiece rook white) in
  getAvailableMoves (setBoard b initialState) 7 0 = Ok []
  /\ getAvailableMoves (setAvailableMoves [(6, 0); (2, 0)] (setBoard b initialState)) 7 0
     = Ok [(6, 0); (2, 0)].
Proof. split; reflexivity. Qed.

(* ================================================================== *)
(** * Further properties of the component *)
(* ================================================================== *)

(** ** What a move changes on the board *)

Lemma assign_read (l : Row) (i j : nat) (x : Cell) :
  mjoin (assign None l i x !! j) = if decide (j = i) then x else mjoin (l !! j).
Proof.
  unfold assign. destruct (decide (i < length l)%nat) as [Hin | Hout].
  - destruct (decide (j = i)) as [-> | Hne].
    + now rewrite list_lookup_insert_eq.
    + now rewrite list_lookup_insert_ne by congruence.
  - destruct (decide (j < length l)%nat) as [Hj | Hj].
    + rewrite lookup_app_l by exact Hj.
      destruct (decide (j = i)); [lia | reflexivity].
    + rewrite lookup_app_r by lia.
      rewrite (lookup_ge_None_2 l j) by lia.
      destruct (decide (j = i)) as [-> | Hne].
      * rewrite lookup_app_r by (rewrite length_replicate; lia).
        rewrite length_replicate, Nat.sub_diag. reflexivity.
      * destruct (decide (j < i)%nat) as [Hlt | Hge].
        -- rewrite lookup_app_l by (rewrite length_replicate; lia).
           rewrite lookup_replicate_2 by lia. reflexivity.
        -- rewrite lookup_app_r by (rewrite length_replicate; lia).
           rewrite length_replicate.
           rewrite lookup_ge_None_2 by (simpl; lia). reflexivity.
Qed.

Lemma assign_length (l : Row) (i : nat) (x : Cell) :
  (i < length l)%nat -> length (assign None l i x) = length l.
Proof.
  intros Hi. unfold assign. destruct (decide _); [apply length_insert | lia].
Qed.

Lemma index_nonneg {A : Type} (l : list A) (i : Z) :
  0 <= i -> index l i = l !! Z.to_nat i.
Proof. intros Hi. unfold index. destruct (Z.ltb_spec i 0); [lia | reflexivity]. Qed.

Lemma index_neg {A : Type} (l : list A) (i : Z) : i < 0 -> index l i = None.
Proof. intros Hi. unfold index. destruct (Z.ltb_spec i 0); [reflexivity | lia]. Qed.

(** Reading a board after one assignment. *)
Lemma setCell_read (b b' : Board) (r c : nat) (x : Cell) (q : Square) :
  setCell b r c x = Ok b' ->
  pieceAt b' q = if decide (q = (Z.of_nat r, Z.of_nat c)) then x else pieceAt b q.
Proof.
  unfold setCell. destruct (b !! r) as [cells |] eqn:Hcells; [| discriminate].
  intros [= <-]. destruct q as [qr qc]. unfold pieceAt, getCellOpt. simpl.
  destruct (Z.ltb_spec qr 0) as [Hneg | Hpos].
  { rewrite !index_neg by exact Hneg.
    destruct (decide _) as [Heq | _]; [injection Heq; lia | reflexivity]. }
  rewrite !index_nonneg by exact Hpos.
  destruct (decide (Z.to_nat qr = r)) as [Hr | Hr].
  - subst r. rewrite list_lookup_insert_eq by (now apply lookup_lt_Some in Hcells).
    rewrite Hcells.
    destruct (Z.ltb_spec qc 0) as [Hcneg | Hcpos].
    { rewrite !index_neg by exact Hcneg.
      destruct (decide _) as [Heq | _]; [injection Heq; lia | reflexivity]. }
    rewrite !index_nonneg by exact Hcpos. rewrite assign_read.
    destruct (decide (Z.to_nat qc = c)) as [Hc | Hc].
    + subst c. rewrite !Z2Nat.id by assumption.
      now rewrite decide_True by reflexivity.
    + rewrite decide_False; [reflexivity |]. intros [= _ Heq]. lia.
  - rewrite list_lookup_insert_ne by congruence.
    rewrite decide_False; [reflexivity |]. intros [= Heq _]. lia.
Qed.

Lemma movePiece_reads (b b' : Board) (fromRow fromCol toRow toCol : nat) (q : Square) :
  movePiece b fromRow fromCol toRow toCol = Ok b' ->
  pieceAt b' q =
    if decide (q = (Z.of_nat fromRow, Z.of_nat fromCol)) then None
    else if decide (q = (Z.of_nat toRow, Z.of_nat toCol))
         then pieceAt b (Z.of_nat fromRow, Z.of_nat fromCol)
         else pieceAt b q.
Proof.
  unfold movePiece. rewrite copyBoard_id. intros Hmv.
  apply bind_Ok in Hmv as (piece & Hpiece & Hmv).
  apply bind_Ok in Hmv as (b1 & H1 & H2).
  rewrite (setCell_read _ _ _ _ _ q H2), (setCell_read _ _ _ _ _ q H1).
  apply getCell_getCellOpt in Hpiece. unfold pieceAt at 2. simpl.
  now rewrite Hpiece.
Qed.

(** X1.  After the three lines that move a piece, the source square is
    empty, the destination (when it is another square) holds what stood on
    the source, and every other square reads as before. *)
Theorem movePiece_moves_one_piece
    (b b' : Board) (fromRow fromCol toRow toCol : nat) :
  movePiece b fromRow fromCol toRow toCol = Ok b' ->
  pieceAt b' (Z.of_nat fromRow, Z.of_nat fromCol) = None
  /\ ((fromRow, fromCol) <> (toRow, toCol) ->
      pieceAt b' (Z.of_nat toRow, Z.of_nat toCol)
      = pieceAt b (Z.of_nat fromRow, Z.of_nat fromCol))
  /\ forall q : Square,
       q <> (Z.of_nat fromRow, Z.of_nat fromCol) ->
       q <> (Z.of_nat toRow, Z.of_nat toCol) ->
       pieceAt b' q = pieceAt b q.
Proof.
  intros Hmv. split; [| split].
  - rewrite (movePiece_reads _ _ _ _ _ _ _ Hmv).
    now rewrite decide_True by reflexivity.
  - intros Hne. rewrite (movePiece_reads _ _ _ _ _ _ _ Hmv).
    rewrite decide_False.
    + now rewrite decide_True by reflexivity.
    + intros [= H1 H2]. apply Hne. f_equal; lia.
  - intros q Hf Ht. rewrite (movePiece_reads _ _ _ _ _ _ _ Hmv).
    now rewrite !decide_False by assumption.
Qed.

Lemma movePiece_moves_one_piece_witness :
  exists b',
    movePiece initialBoard 6 4 4 4 = Ok b'
    /\ pieceAt b' (6, 4) = None
    /\ pieceAt b' (4, 4) = Some (mkPiece pawn white)
    /\ pieceAt b' (7, 4) = Some (mkPiece king white).
Proof.
  eexists. split; [vm_compute; reflexivity |].
  refine (match movePiece_moves_one_piece initialBoard _ 6 4 4 4 _ with
          | conj H1 (conj H2 H3) =>
              conj H1 (conj (H2 _) (H3 (7, 4) _ _))
          end); [vm_compute; reflexivity | discriminate ..].
Defined.

(** ** The shape of the board *)

Lemma rendered_shape (b : Board) (row col : nat) :
  rendered b row col <-> exists n, shape b !! row = Some n /\ (col < n)%nat.
Proof.
  unfold rendered, shape. rewrite list_lookup_fmap. split.
  - intros (cells & -> & Hc). eauto.
  - destruct (b !! row) as [cells |]; simpl; intros (n & [= <-] & Hc); eauto.
Qed.

Lemma setCell_shape (b b' : Board) (r c : nat) (x : Cell) :
  setCell b r c x = Ok b' -> rendered b r c -> shape b' = shape b.
Proof.
  unfold setCell. intros Hset (cells & Hcells & Hc). rewrite Hcells in Hset.
  injection Hset as <-. unfold shape.
  rewrite list_fmap_insert, assign_length by exact Hc.
  apply list_insert_id. now rewrite list_lookup_fmap, Hcells.
Qed.

Lemma movePiece_shape (b b' : Board) (fromRow fromCol toRow toCol : nat) :
  movePiece b fromRow fromCol toRow toCol = Ok b' ->
  rendered b fromRow fromCol -> rendered b toRow toCol ->
  shape b' = shape b.
Proof.
  unfold movePiece. rewrite copyBoard_id. intros Hmv Hfrom Hto.
  apply bind_Ok in Hmv as (piece & _ & Hmv).
  apply bind_Ok in Hmv as (b1 & H1 & H2).
  pose proof (setCell_shape _ _ _ _ _ H1 Hto) as Hs1.
  rewrite <- Hs1. apply (setCell_shape _ _ _ _ _ H2).
  apply rendered_shape. rewrite Hs1. now apply rendered_shape.
Qed.

Lemma getCell_Some_rendered (b : Board) (r c : nat) (p : Piece) :
  getCell b (Z.of_nat r) (Z.of_nat c) = Ok (Some p) -> rendered b r c.
Proof.
  unfold getCell. rewrite index_of_nat.
  destruct (b !! r) as [cells |] eqn:Hcells; [| discriminate].
  rewrite index_of_nat. intros [= Hp]. exists cells. split; [exact Hcells |].
  destruct (cells !! c) eqn:Hc; [| discriminate]. now apply lookup_lt_Some in Hc.
Qed.

Lemma snoc_neq {A : Type} (l : list A) (x : A) : l ++ [x] <> l.
Proof.
  intros H. apply (f_equal length) in H. rewrite length_app in H. simpl in H. lia.
Qed.

(** X2.  A click on a rendered square never changes the shape of the
    board: the number of ranks and the length of each rank stay as they
    are, whether the click selects, deselects or moves. *)
Theorem handleSquareClick_keeps_shape
    (st st' : State) (row col : nat) (timer : bool) :
  handleSquareClick st row col = Ok (st', timer) ->
  rendered (board st) row col ->
  shape (board st') = shape (board st).
Proof.
  unfold handleSquareClick. intros Hclick Hto.
  destruct (selectedSquare st) as [[s0 s1] |].
  - apply bind_Ok in Hclick as ([] & Hv & Hclick).
    + apply bind_Ok in Hclick as (nb & Hmv & Hclick). injection Hclick as <- _.
      apply isValidMove_true in Hv as ((p & Hp & _) & _).
      apply (movePiece_shape _ _ _ _ _ _ Hmv); [| exact Hto].
      exact (getCell_Some_rendered _ _ _ _ Hp).
    + now injection Hclick as <- _.
  - apply bind_Ok in Hclick as (cell & _ & Hclick).
    destruct (_ && _); now injection Hclick as <- _.
Qed.

Lemma handleSquareClick_keeps_shape_witness :
  exists st' timer,
    handleSquareClick e2Selected 4 4 = Ok (st', timer)
    /\ shape (board st') = replicate 8 8%nat.
Proof.
  eexists _, _. split; [vm_compute; reflexivity |].
  refine (handleSquareClick_keeps_shape e2Selected _ 4 4 _ _ _).
  - vm_compute. reflexivity.
  - exists (replicate 8 None). split; [reflexivity | simpl; lia].
Defined.

Lemma rendered_8x8 (b : Board) (r c : Z) :
  shape b = replicate 8 8%nat -> 0 <= r <= 7 -> 0 <= c <= 7 ->
  rendered b (Z.to_nat r) (Z.to_nat c).
Proof.
  intros Hshape Hr Hc. apply rendered_shape. exists 8%nat. split; [| lia].
  rewrite Hshape. apply lookup_replicate_2. lia.
Qed.

(** X3.  When the board the computer reads and the board on display are
    both eight ranks of eight squares, so is the board after
    [makeComputerMove]. *)
Theorem makeComputerMove_keeps_8x8 (closure live st' : State) (pick : nat) :
  shape (board closure) = replicate 8 8%nat ->
  shape (board live) = replicate 8 8%nat ->
  makeComputerMove closure pick live = Ok st' ->
  shape (board st') = replicate 8 8%nat.
Proof.
  intros Hclosure Hlive. unfold makeComputerMove. intros Hrun.
  apply bind_Ok in Hrun as (moves & Hmoves & Hrun).
  destruct (0 <? length moves)%nat; [| now injection Hrun as <-].
  destruct (moves !! pick) as [[[fromRow fromCol] [toRow toCol]] |] eqn:Hpick;
    [| discriminate].
  apply bind_Ok in Hrun as (nb & Hmv & Hrun). injection Hrun as <-.
  cbn [board setMoveHistory setCurrentPlayer setBoard].
  assert (Hin : In ((fromRow, fromCol), (toRow, toCol)) moves).
  { apply list_elem_of_In, list_elem_of_lookup. eauto. }
  apply (possibleMoves_spec _ _ Hmoves) in Hin as (Hi & Hj & _ & ms & Hms & Hto).
  apply (getAvailableMoves_filtered _ _ _ _ _ Hms), onBoard_range in Hto as [Hr Hc].
  rewrite <- Hclosure. apply (movePiece_shape _ _ _ _ _ _ Hmv).
  - apply rendered_8x8; [exact Hclosure | lia | lia].
  - apply rendered_8x8; [exact Hclosure | lia | lia].
Qed.

Lemma makeComputerMove_keeps_8x8_witness :
  exists st',
    makeComputerMove initialState 0 initialState = Ok st'
    /\ shape (board st') = replicate 8 8%nat.
Proof.
  eexists. split; [vm_compute; reflexivity |].
  refine (makeComputerMove_keeps_8x8 initialState initialState _ 0 _ _ _);
    vm_compute; reflexivity.
Defined.

(** ** The three kinds of click *)

(** X4.  A click that changes the history is a move: a square was
    selected, it held a piece of the player to move, the clicked square
    held no piece of that player and was highlighted; the new board is the
    old one with the piece moved, the turn passes to the other colour, the
    history gains exactly the entry of this move, the selection is cleared,
    and the timer for the computer is started exactly in computer mode
    after a move of white. *)
Theorem handleSquareClick_move (st st' : State) (row col : nat) (timer : bool) :
  handleSquareClick st row col = Ok (st', timer) ->
  moveHistory st' <> moveHistory st ->
  exists s0 s1 p,
    selectedSquare st = Some (s0, s1)
    /\ pieceAt (board st) (Z.of_nat s0, Z.of_nat s1) = Some p
    /\ color p = currentPlayer st
    /\ colorOf (pieceAt (board st) (Z.of_nat row, Z.of_nat col)) <> Some (currentPlayer st)
    /\ highlighted st row col = true
    /\ movePiece (board st) s0 s1 row col = Ok (board st')
    /\ currentPlayer st' = otherColor (currentPlayer st)
    /\ moveHistory st'
       = moveHistory st
           ++ [historyEntry (Z.of_nat s0) (Z.of_nat s1) (Z.of_nat row) (Z.of_nat col)]
    /\ selectedSquare st' = None
    /\ availableMoves st' = availableMoves st
    /\ gameMode st' = gameMode st
    /\ timer = bool_decide (gameMode st = Some computer)
               && bool_decide (currentPlayer st = white).
Proof.
  unfold handleSquareClick. intros Hclick Hhist.
  destruct (selectedSquare st) as [[s0 s1] |] eqn:Hsel.
  - apply bind_Ok in Hclick as ([] & Hv & Hclick).
    + apply bind_Ok in Hclick as (nb & Hmv & Hclick). injection Hclick as <- <-.
      pose proof Hv as Htrue.
      apply isValidMove_true in Htrue as ((p & Hp & Hc) & (dest & Hd & Hnf) & Hin).
      exists s0, s1, p. unfold pieceAt, highlighted. simpl.
      rewrite (getCell_getCellOpt _ _ _ _ Hp), (getCell_getCellOpt _ _ _ _ Hd).
      repeat split; try assumption; try reflexivity.
      apply existsb_exists. exists (Z.of_nat row, Z.of_nat col).
      split; [exact Hin |]. unfold sameSquare. now rewrite !Z.eqb_refl.
    + injection Hclick as <- <-. now destruct Hhist.
  - apply bind_Ok in Hclick as (cell & _ & Hclick).
    destruct (_ && _); injection Hclick as <- <-; now destruct Hhist.
Qed.

Lemma handleSquareClick_move_witness :
  exists st' timer,
    handleSquareClick e2Selected 4 4 = Ok (st', timer)
    /\ currentPlayer st' = black
    /\ moveHistory st' = ["6,4 to 4,4"%string].
Proof.
  eexists _, _. split; [vm_compute; reflexivity |].
  destruct (handleSquareClick_move e2Selected _ 4 4 _ eq_refl)
    as (s0 & s1 & p & Hsel & _ & _ & _ & _ & _ & Hturn & Hhist & _).
  - vm_compute. discriminate.
  - injection Hsel as <- <-. split; [exact Hturn | exact Hhist].
Defined.

(** X5.  A click that leaves the history as it is changes neither the
    board nor the turn nor the highlighted moves and starts no timer.  It
    either clears the selection, or, with nothing selected before, selects
    the clicked square, and then that square holds a piece of the player
    to move. *)
Theorem handleSquareClick_selection (st st' : State) (row col : nat) (timer : bool) :
  handleSquareClick st row col = Ok (st', timer) ->
  moveHistory st' = moveHistory st ->
  board st' = board st
  /\ currentPlayer st' = currentPlayer st
  /\ availableMoves st' = availableMoves st
  /\ timer = false
  /\ (selectedSquare st' = None
      \/ (selectedSquare st = None
          /\ selectedSquare st' = Some (row, col)
          /\ colorOf (pieceAt (board st) (Z.of_nat row, Z.of_nat col))
             = Some (currentPlayer st))).
Proof.
  unfold handleSquareClick. intros Hclick Hhist.
  destruct (selectedSquare st) as [[s0 s1] |] eqn:Hsel.
  - apply bind_Ok in Hclick as ([] & Hv & Hclick).
    + apply bind_Ok in Hclick as (nb & Hmv & Hclick). injection Hclick as <- <-.
      simpl in Hhist. now apply snoc_neq in Hhist.
    + injection Hclick as <- <-. simpl. auto 10.
  - apply bind_Ok in Hclick as (cell & Hcell & Hclick).
    apply getCell_getCellOpt in Hcell.
    destruct (negb (isEmpty cell)) eqn:Hne; simpl in Hclick.
    + unfold colorIs in Hclick.
      destruct (bool_decide_reflect (colorOf cell = Some (currentPlayer st))) as [Hc | Hc];
        injection Hclick as <- <-; simpl.
      * repeat split. right. unfold pieceAt. simpl. rewrite Hcell. auto.
      * rewrite Hsel. auto 10.
    + injection Hclick as <- <-. rewrite Hsel. auto 10.
Qed.

Lemma handleSquareClick_selection_witness :
  exists st' timer,
    handleSquareClick initialState 6 4 = Ok (st', timer)
    /\ board st' = initialBoard /\ timer = false.
Proof.
  eexists _, _. split; [vm_compute; reflexivity |].
  destruct (handleSquareClick_selection initialState _ 6 4 _ eq_refl eq_refl)
    as (Hb & _ & _ & Ht & _).
  split; [exact Hb | exact Ht].
Defined.

(** ** What the generator offers *)

Lemma forLoop_Err_inv {T : Type} (body : Z -> T -> result T) (n : nat) (i : Z)
    (s : T) (e : exn) :
  forLoop n i body s = Err e ->
  exists j s', i <= j < i + Z.of_nat n /\ body j s' = Err e.
Proof.
  revert i s. induction n as [| n IH]; intros i s; simpl; [discriminate |].
  intros Hrun. apply bind_Err in Hrun as [Hb | (s1 & _ & Hrun)].
  - exists i, s. split; [lia | exact Hb].
  - destruct (IH _ _ Hrun) as (j & s' & Hj & Hb). exists j, s'. split; [lia | exact Hb].
Qed.

Lemma forLoop_all_Ok {T : Type} (body : Z -> T -> result T) (n : nat) (i : Z) (s : T) :
  (forall j s1, i <= j < i + Z.of_nat n -> exists s2, body j s1 = Ok s2) ->
  exists s', forLoop n i body s = Ok s'.
Proof.
  revert i s. induction n as [| n IH]; intros i s Hbody; simpl; [eauto |].
  destruct (Hbody i s ltac:(lia)) as [s1 ->]. cbn [mbind result_bind].
  apply IH. intros j s2 Hj. apply Hbody. lia.
Qed.

Lemma getAvailableMoves_error st row col e :
  getAvailableMoves st row col = Err e -> e = TypeError.
Proof.
  unfold getAvailableMoves, getCell. intros H.
  destruct (index (board st) row) as [cells |]; [| simpl in H; congruence].
  cbn [mbind result_bind] in H.
  destruct (mjoin (index cells col)) as [p |]; [| discriminate].
  apply bind_Err in H as [H | (moves & _ & H)]; [| discriminate].
  destruct (type p); try discriminate.
  apply forLoop_Err_inv in H as (j & s' & _ & H). exact (rookStep_error _ _ _ _ _ _ H).
Qed.

(** Each pawn destination with the reason it was pushed. *)
Lemma pawnMoves_inv (b : Board) (row col : Z) (c : PieceColor) (m : Square) :
  In m (pawnMoves b row col c) ->
  (m = (row + direction c, col) /\ pieceAt b m = None)
  \/ (m = (row + 2 * direction c, col) /\ pieceAt b m = None
      /\ ((row = 1 /\ c = black) \/ (row = 6 /\ c = white)))
  \/ ((m = (row + direction c, col - 1) \/ m = (row + direction c, col + 1))
      /\ colorOf (pieceAt b m) <> Some c).
Proof.
  unfold pawnMoves. rewrite !In_pushIf.
  assert (Hempty : forall cell : Cell, isEmpty cell = true -> cell = None).
  { intros [p |]; [discriminate | reflexivity]. }
  assert (Hnot : forall cell : Cell, colorIsNot cell c = true -> colorOf cell <> Some c).
  { intros cell. unfold colorIsNot, colorIs.
    rewrite negb_true_iff, bool_decide_eq_false. auto. }
  intros [[Hin | [Hc ->]] | [Hc ->]].
  - destruct (_ || _) eqn:Hstart.
    + rewrite !In_pushIf in Hin. destruct Hin as [[[] | [He ->]] | [He ->]].
      * left. split; [reflexivity | apply Hempty, He].
      * right. left. split; [reflexivity |]. split; [apply Hempty, He |].
        apply orb_true_iff in Hstart as [H | H];
          apply andb_true_iff in H as [Hr Hcol];
          apply Z.eqb_eq in Hr; apply bool_decide_eq_true in Hcol; auto.
    + rewrite In_pushIf in Hin. destruct Hin as [[] | [He ->]].
      left. split; [reflexivity | apply Hempty, He].
  - right. right. split; [now left | apply Hnot, Hc].
  - right. right. split; [now right | apply Hnot, Hc].
Qed.

Lemma rookStep_inv st row col i moves moves' m :
  rookStep st row col i moves = Ok moves' ->
  In m moves' ->
  In m moves
  \/ exists p dest, getCell (board st) row col = Ok (Some p)
                    /\ color p = currentPlayer st
                    /\ getCell (board st) m.1 m.2 = Ok dest
                    /\ colorOf dest <> Some (currentPlayer st)
                    /\ In m (availableMoves st).
Proof.
  unfold rookStep. intros Hstep Hin.
  apply bind_Ok in Hstep as (v1 & H1 & Hstep).
  apply bind_Ok in Hstep as (v2 & H2 & Hstep).
  apply bind_Ok in Hstep as (v3 & H3 & Hstep).
  apply bind_Ok in Hstep as (v4 & H4 & Hstep). injection Hstep as <-.
  assert (Hgood : forall v sq, isValidMove st (row, col) sq = Ok v -> v = true ->
            exists p dest, getCell (board st) row col = Ok (Some p)
                           /\ color p = currentPlayer st
                           /\ getCell (board st) sq.1 sq.2 = Ok dest
                           /\ colorOf dest <> Some (currentPlayer st)
                           /\ In sq (availableMoves st)).
  { intros v [tr tc] Hv ->.
    apply isValidMove_true in Hv as ((p & Hp & Hc) & (dest & Hd & Hnf) & Hav).
    exists p, dest. auto. }
  apply In_pushIf in Hin as [Hin | [-> ->]]; [| right; eapply Hgood; eauto].
  apply In_pushIf in Hin as [Hin | [-> ->]]; [| right; eapply Hgood; eauto].
  apply In_pushIf in Hin as [Hin | [-> ->]]; [| right; eapply Hgood; eauto].
  apply In_pushIf in Hin as [Hin | [-> ->]]; [| right; eapply Hgood; eauto].
  now left.
Qed.

Lemma rookLoop_inv st row col n i moves m :
  forLoop n i (rookStep st row col) [] = Ok moves ->
  In m moves ->
  exists p dest, getCell (board st) row col = Ok (Some p)
                 /\ color p = currentPlayer st
                 /\ getCell (board st) m.1 m.2 = Ok dest
                 /\ colorOf dest <> Some (currentPlayer st)
                 /\ In m (availableMoves st).
Proof.
  intros Hrun Hin.
  pose (Inv := fun (_ : Z) (acc : list Square) =>
          forall m', In m' acc ->
            exists p dest, getCell (board st) row col = Ok (Some p)
                           /\ color p = currentPlayer st
                           /\ getCell (board st) m'.1 m'.2 = Ok dest
                           /\ colorOf dest <> Some (currentPlayer st)
                           /\ In m' (availableMoves st)).
  assert (Hinv : Inv (i + Z.of_nat n) moves).
  { apply (forLoop_invariant Inv (rookStep st row col) n i [] moves);
      [| | exact Hrun].
    - intros m' [].
    - intros j s1 s2 _ Hs1 Hstep m' Hm'.
      destruct (rookStep_inv _ _ _ _ _ _ _ Hstep Hm') as [Hold | Hnew];
        [exact (Hs1 m' Hold) | exact Hnew]. }
  exact (Hinv m Hin).
Qed.

(** X6.  No destination [getAvailableMoves] returns holds a piece of the
    colour of the piece that moves: the generator never offers the capture
    of an own piece. *)
Theorem getAvailableMoves_never_own_piece
    (st : State) (row col : Z) (p : Piece) (ms : list Square) (m : Square) :
  getCell (board st) row col = Ok (Some p) ->
  getAvailableMoves st row col = Ok ms ->
  In m ms ->
  colorOf (pieceAt (board st) m) <> Some (color p).
Proof.
  intros Hp Hms Hin. unfold getAvailableMoves in Hms. rewrite Hp in Hms.
  cbn [mbind result_bind] in Hms.
  apply bind_Ok in Hms as (moves & Hmoves & Hms). injection Hms as <-.
  apply filter_In in Hin as [Hin _].
  destruct (type p); try (injection Hmoves as <-; destruct Hin).
  - injection Hmoves as <-.
    apply pawnMoves_inv in Hin as [[_ ->] | [(_ & -> & _) | [_ Hc]]];
      [discriminate | discriminate | exact Hc].
  - destruct (rookLoop_inv _ _ _ _ _ _ _ Hmoves Hin)
      as (p' & dest & Hp' & Hc & Hd & Hnf & _).
    rewrite Hp in Hp'. injection Hp' as <-. rewrite Hc.
    unfold pieceAt. now rewrite (getCell_getCellOpt _ _ _ _ Hd).
Qed.

Lemma getAvailableMoves_never_own_piece_witness :
  colorOf (pieceAt initialBoard (5, 3)) <> Some white.
Proof.
  apply (getAvailableMoves_never_own_piece initialState 6 4 (mkPiece pawn white)
           [(5, 4); (4, 4); (5, 3); (5, 5)] (5, 3)).
  - reflexivity.
  - reflexivity.
  - simpl. right. right. left. reflexivity.
Defined.

(** X7.  A pawn is offered only squares ahead of it: one rank further in
    its direction (white towards rank index 0, black towards 7) on its own
    file or an adjacent one, or two ranks further on its own file, the
    latter from its starting rank only (index 6 for white, 1 for black);
    a destination on its own file is always an empty square. *)
Theorem pawn_destinations_are_ahead
    (st : State) (row col : Z) (p : Piece) (ms : list Square) (r c : Z) :
  getCell (board st) row col = Ok (Some p) ->
  type p = pawn ->
  getAvailableMoves st row col = Ok ms ->
  In (r, c) ms ->
  (r = row + direction (color p) /\ col - 1 <= c <= col + 1
   \/ (r = row + 2 * direction (color p) /\ c = col
       /\ row = (if decide (color p = white) then 6 else 1)))
  /\ (c = col -> pieceAt (board st) (r, c) = None).
Proof.
  intros Hp Ht Hms Hin. unfold getAvailableMoves in Hms. rewrite Hp in Hms.
  cbn [mbind result_bind] in Hms. rewrite Ht in Hms.
  cbn [mbind result_bind] in Hms. injection Hms as <-.
  apply filter_In in Hin as [Hin _].
  apply pawnMoves_inv in Hin as [[Heq He] | [(Heq & He & Hstart) | [Heq Hc]]].
  - injection Heq as -> ->. split; [left; lia | auto].
  - injection Heq as -> ->. split; [| auto]. right.
    repeat split. destruct Hstart as [[-> ->] | [-> ->]]; reflexivity.
  - split.
    + left. destruct Heq as [Heq | Heq]; injection Heq as -> ->; lia.
    + intros Hcol. destruct Heq as [Heq | Heq]; injection Heq as -> ->; lia.
Qed.

Lemma pawn_destinations_are_ahead_witness :
  (4 = 6 + direction white /\ 4 - 1 <= 4 <= 4 + 1
   \/ (4 = 6 + 2 * direction white /\ 4 = 4
       /\ 6 = (if decide (white = white) then 6 else 1)))
  /\ (4 = 4 -> pieceAt initialBoard (4, 4) = None).
Proof.
  apply (pawn_destinations_are_ahead initialState 6 4 (mkPiece pawn white)
           [(5, 4); (4, 4); (5, 3); (5, 5)] 4 4).
  - reflexivity.
  - reflexivity.
  - reflexivity.
  - simpl. right. left. reflexivity.
Defined.

Lemma offered_piece_small_board st row col cell ms m :
  (length (board st) <= 8)%nat ->
  getCell (board st) row col = Ok cell ->
  getAvailableMoves st row col = Ok ms ->
  In m ms ->
  exists p, cell = Some p /\ type p = pawn.
Proof.
  intros Hlen Hcell Hms Hin. destruct cell as [p |].
  - exists p. split; [reflexivity |]. destruct (type p) eqn:Ht; [reflexivity | | | | |].
    + rewrite (rook_generates_nothing _ _ _ _ Hlen Hcell Ht) in Hms.
      destruct (decide _); [discriminate | injection Hms as <-; destruct Hin].
    + unfold getAvailableMoves in Hms. rewrite Hcell in Hms.
      cbn [mbind result_bind] in Hms. rewrite Ht in Hms.
      injection Hms as <-. destruct Hin.
    + unfold getAvailableMoves in Hms. rewrite Hcell in Hms.
      cbn [mbind result_bind] in Hms. rewrite Ht in Hms.
      injection Hms as <-. destruct Hin.
    + unfold getAvailableMoves in Hms. rewrite Hcell in Hms.
      cbn [mbind result_bind] in Hms. rewrite Ht in Hms.
      injection Hms as <-. destruct Hin.
    + unfold getAvailableMoves in Hms. rewrite Hcell in Hms.
      cbn [mbind result_bind] in Hms. rewrite Ht in Hms.
      injection Hms as <-. destruct Hin.
  - unfold getAvailableMoves in Hms. rewrite Hcell in Hms.
    injection Hms as <-. destruct Hin.
Qed.

Lemma offered_piece_no_highlights st row col cell ms m :
  availableMoves st = [] ->
  getCell (board st) row col = Ok cell ->
  getAvailableMoves st row col = Ok ms ->
  In m ms ->
  exists p, cell = Some p /\ type p = pawn.
Proof.
  intros Hidle Hcell Hms Hin. unfold getAvailableMoves in Hms. rewrite Hcell in Hms.
  destruct cell as [p |]; [| injection Hms as <-; destruct Hin].
  cbn [mbind result_bind] in Hms.
  apply bind_Ok in Hms as (moves & Hmoves & Hms). injection Hms as <-.
  apply filter_In in Hin as [Hin _].
  exists p. split; [reflexivity |].
  destruct (type p); try reflexivity; try (injection Hmoves as <-; destruct Hin).
  destruct (rookLoop_inv _ _ _ _ _ _ _ Hmoves Hin) as (_ & _ & _ & _ & _ & _ & Hav).
  rewrite Hidle in Hav. destruct Hav.
Qed.

(** X8.  On a board of at most eight ranks only a pawn is ever offered a
    destination: for every other piece, and for an empty square,
    [getAvailableMoves] returns no move or throws. *)
Theorem only_pawns_are_offered_moves
    (st : State) (row col : Z) (ms : list Square) (m : Square) :
  (length (board st) <= 8)%nat ->
  getAvailableMoves st row col = Ok ms ->
  In m ms ->
  exists c, pieceAt (board st) (row, col) = Some (mkPiece pawn c).
Proof.
  intros Hlen Hms Hin.
  destruct (getCell (board st) row col) as [cell | e] eqn:Hcell.
  - destruct (offered_piece_small_board _ _ _ _ _ _ Hlen Hcell Hms Hin)
      as ([t c] & -> & Ht).
    simpl in Ht. subst t. exists c. unfold pieceAt.
    exact (getCell_getCellOpt _ _ _ _ Hcell).
  - unfold getAvailableMoves in Hms. rewrite Hcell in Hms. discriminate.
Qed.

Lemma only_pawns_are_offered_moves_witness :
  exists c, pieceAt initialBoard (1, 3) = Some (mkPiece pawn c).
Proof.
  apply (only_pawns_are_offered_moves initialState 1 3 [(2, 3); (3, 3); (2, 2); (2, 4)] (3, 3)).
  - simpl. lia.
  - reflexivity.
  - simpl. right. left. reflexivity.
Defined.

(** ** Selection and highlighting *)

Lemma getAvailableMoves_reads (st1 st2 : State) (row col : Z) :
  board st1 = board st2 ->
  currentPlayer st1 = currentPlayer st2 ->
  availableMoves st1 = availableMoves st2 ->
  getAvailableMoves st1 row col = getAvailableMoves st2 row col.
Proof.
  intros Hb Hc Ha. unfold getAvailableMoves, rookStep, isValidMove.
  now rewrite Hb, Hc, Ha.
Qed.

(** X9.  The selection and the highlighting stay in step under clicks: if
    before a click either nothing is selected and nothing highlighted, or
    the selected square holds a piece of the player to move and the
    highlighted squares are the moves computed for it, then the same holds
    after the click and the re-render that follows. *)
Theorem click_keeps_coherent (st st' : State) (sq : nat * nat) :
  coherent st ->
  click st sq = Ok st' ->
  coherent st'.
Proof.
  unfold click. intros Hco Hclick.
  apply bind_Ok in Hclick as ([st1 timer] & Hh & Hclick). simpl in Hclick.
  destruct sq as [row col]. simpl in Hh. unfold handleSquareClick in Hh.
  unfold coherent in Hco.
  destruct (selectedSquare st) as [[s0 s1] |] eqn:Hsel.
  - assert (Hnone : selectedSquare st1 = None).
    { apply bind_Ok in Hh as ([] & _ & Hh).
      - apply bind_Ok in Hh as (nb & _ & Hh). now injection Hh as <- _.
      - now injection Hh as <- _. }
    rewrite Hnone in Hclick. rewrite decide_False in Hclick by discriminate.
    unfold selectionEffect in Hclick. rewrite Hnone in Hclick.
    injection Hclick as <-. unfold coherent. simpl. now rewrite Hnone.
  - apply bind_Ok in Hh as (cell & Hcell & Hh).
    destruct (negb (isEmpty cell) && colorIs cell (currentPlayer st)) eqn:Hown;
      injection Hh as <- <-.
    + cbn [selectedSquare setSelectedSquare] in Hclick.
      rewrite decide_False in Hclick by discriminate.
      unfold selectionEffect in Hclick.
      cbn [selectedSquare setSelectedSquare] in Hclick.
      apply bind_Ok in Hclick as (ms & Hms & Hclick). injection Hclick as <-.
      unfold coherent. simpl. split.
      * apply andb_true_iff in Hown as [_ Hc]. unfold colorIs in Hc.
        apply bool_decide_eq_true in Hc. unfold pieceAt. simpl.
        now rewrite (getCell_getCellOpt _ _ _ _ Hcell).
      * rewrite <- Hms. apply getAvailableMoves_reads; simpl; congruence.
    + rewrite Hsel in Hclick. rewrite decide_True in Hclick by reflexivity.
      injection Hclick as <-. unfold coherent. now rewrite Hsel.
Qed.

Lemma click_keeps_coherent_witness :
  exists st', click initialState (6, 4)%nat = Ok st' /\ coherent st'.
Proof.
  eexists. split; [vm_compute; reflexivity |].
  refine (click_keeps_coherent initialState _ (6, 4)%nat _ _).
  - reflexivity.
  - vm_compute. reflexivity.
Defined.

(** X10.  When selection and highlighting are in step, the only piece a
    click can move is a pawn, and it lands on one of the sixty-four
    squares of indices 0 to 7. *)
Theorem coherent_click_moves_a_pawn
    (st st' : State) (row col : nat) (timer : bool) :
  coherent st ->
  handleSquareClick st row col = Ok (st', timer) ->
  moveHistory st' <> moveHistory st ->
  exists s0 s1,
    selectedSquare st = Some (s0, s1)
    /\ pieceAt (board st) (Z.of_nat s0, Z.of_nat s1)
       = Some (mkPiece pawn (currentPlayer st))
    /\ (row <= 7)%nat /\ (col <= 7)%nat.
Proof.
  intros Hco Hclick Hhist. unfold handleSquareClick in Hclick. unfold coherent in Hco.
  destruct (selectedSquare st) as [[s0 s1] |] eqn:Hsel.
  - apply bind_Ok in Hclick as ([] & Hv & Hclick).
    + apply isValidMove_true in Hv as ((p & Hp & Hc) & _ & Hin).
      destruct Hco as [_ Hms].
      assert (Hp' : getCell (board (setAvailableMoves [] st)) (Z.of_nat s0) (Z.of_nat s1)
                    = Ok (Some p)) by exact Hp.
      destruct (offered_piece_no_highlights (setAvailableMoves [] st)
                  _ _ _ _ _ eq_refl Hp' Hms Hin)
        as (p0 & [= <-] & Ht).
      apply (getAvailableMoves_filtered _ _ _ _ _ Hms), onBoard_range in Hin.
      exists s0, s1. split; [reflexivity |]. split; [| lia].
      unfold pieceAt. simpl. rewrite (getCell_getCellOpt _ _ _ _ Hp).
      destruct p as [t c]. simpl in *. now subst.
    + injection Hclick as <- _. now destruct Hhist.
  - apply bind_Ok in Hclick as (cell & _ & Hclick).
    destruct (_ && _); injection Hclick as <- _; now destruct Hhist.
Qed.

Lemma coherent_click_moves_a_pawn_witness :
  exists s0 s1,
    selectedSquare e2Selected = Some (s0, s1)
    /\ pieceAt (board e2Selected) (Z.of_nat s0, Z.of_nat s1)
       = Some (mkPiece pawn (currentPlayer e2Selected))
    /\ (4 <= 7)%nat /\ (4 <= 7)%nat.
Proof.
  refine (coherent_click_moves_a_pawn e2Selected _ 4 4 _ _ _ _).
  - split; reflexivity.
  - vm_compute. reflexivity.
  - vm_compute. discriminate.
Defined.

(** X11.  On a board of at most eight ranks, with nothing selected, the
    click on a rook of the player to move selects it and the re-render
    that follows throws a [TypeError]. *)
Theorem selecting_own_rook_throws (st : State) (row col : nat) :
  (length (board st) <= 8)%nat ->
  selectedSquare st = None ->
  pieceAt (board st) (Z.of_nat row, Z.of_nat col)
    = Some (mkPiece rook (currentPlayer st)) ->
  click st (row, col) = Err TypeError.
Proof.
  intros Hlen Hsel Hrook. unfold click, handleSquareClick. simpl. rewrite Hsel.
  assert (Hcell : getCell (board st) (Z.of_nat row) (Z.of_nat col)
                  = Ok (Some (mkPiece rook (currentPlayer st)))).
  { unfold pieceAt, getCellOpt, getCell in *. simpl in Hrook.
    destruct (index (board st) (Z.of_nat row)); [now rewrite Hrook | discriminate]. }
  rewrite Hcell. cbn [mbind result_bind isEmpty negb andb].
  unfold colorIs. simpl. rewrite bool_decide_eq_true_2 by reflexivity.
  cbn [mbind result_bind fst selectedSquare setSelectedSquare].
  rewrite decide_False by discriminate.
  unfold selectionEffect. cbn [selectedSquare setSelectedSquare].
  rewrite (rook_generates_nothing (setSelectedSquare (Some (row, col)) st)
             (Z.of_nat row) (Z.of_nat col) (mkPiece rook (currentPlayer st)));
    [| exact Hlen | exact Hcell | reflexivity].
  simpl. now rewrite decide_True by reflexivity.
Qed.

Lemma selecting_own_rook_throws_witness :
  click initialState (7, 0)%nat = Err TypeError.
Proof.
  apply (selecting_own_rook_throws initialState 7 0).
  - simpl. lia.
  - reflexivity.
  - reflexivity.
Defined.

(** ** The computer's reply *)

Lemma getCell_of_pieceAt (b : Board) (r c : Z) (p : Piece) :
  pieceAt b (r, c) = Some p -> getCell b r c = Ok (Some p).
Proof.
  unfold pieceAt, getCellOpt, getCell. simpl.
  destruct (index b r); [now intros -> | discriminate].
Qed.

Lemma collectSquare_error st i j acc e :
  collectSquare st i j acc = Err e -> e = TypeError.
Proof.
  unfold collectSquare, getCell. intros H.
  destruct (index (board st) i) as [cells |]; [| simpl in H; congruence].
  cbn [mbind result_bind] in H.
  destruct (colorIs _ black); [| discriminate].
  apply bind_Err in H as [H | (ms & _ & H)]; [| discriminate].
  exact (getAvailableMoves_error _ _ _ _ H).
Qed.

Lemma collectRow_error st i acc e :
  forLoop 8 0 (fun j => collectSquare st i j) acc = Err e -> e = TypeError.
Proof.
  intros H. apply forLoop_Err_inv in H as (j & s' & _ & H).
  exact (collectSquare_error _ _ _ _ _ H).
Qed.

Lemma getAvailableMoves_Err_rook st row col p e :
  getCell (board st) row col = Ok (Some p) ->
  getAvailableMoves st row col = Err e ->
  type p = rook.
Proof.
  intros Hp H. unfold getAvailableMoves in H. rewrite Hp in H.
  cbn [mbind result_bind] in H. destruct (type p); try discriminate. reflexivity.
Qed.

(** X12.  On a board of eight ranks the double loop of [makeComputerMove]
    throws exactly when black is the player to move in the state it reads
    and a black rook stands on the board; the exception is a [TypeError].
    In every other case the list of moves is built. *)
Theorem possibleMoves_throws_iff_black_rook (st : State) :
  length (board st) = 8%nat ->
  ((exists e, possibleMoves st = Err e) <->
   (currentPlayer st = black
    /\ exists i j, 0 <= i < 8 /\ 0 <= j < 8
                   /\ pieceAt (board st) (i, j) = Some (mkPiece rook black)))
  /\ (forall e, possibleMoves st = Err e -> e = TypeError).
Proof.
  intros Hlen. split; [split |].
  - intros [e Herr]. unfold possibleMoves in Herr.
    apply forLoop_Err_inv in Herr as (i & acc & Hi & Hrow).
    apply forLoop_Err_inv in Hrow as (j & acc' & Hj & Hsq).
    unfold collectSquare in Hsq.
    apply bind_Err in Hsq as [Hcell | (cell & Hcell & Hsq)].
    { unfold getCell in Hcell.
      rewrite index_nonneg in Hcell by lia.
      destruct (board st !! Z.to_nat i) eqn:Hrank; [discriminate |].
      apply lookup_ge_None in Hrank. lia. }
    unfold colorIs in Hsq.
    destruct (bool_decide_reflect (colorOf cell = Some black)) as [Hblack | _];
      [| discriminate].
    apply bind_Err in Hsq as [Hms | (ms & _ & Hsq)]; [| discriminate].
    destruct cell as [p |]; [| discriminate].
    pose proof (getAvailableMoves_Err_rook _ _ _ _ _ Hcell Hms) as Ht.
    assert (Hlen8 : (length (board st) <= 8)%nat) by lia.
    rewrite (rook_generates_nothing _ _ _ _ Hlen8 Hcell Ht) in Hms.
    destruct (decide (color p = currentPlayer st)) as [Hc | _]; [| discriminate].
    simpl in Hblack. injection Hblack as Hblack.
    split; [congruence |]. exists i, j. split; [lia |]. split; [lia |].
    unfold pieceAt. simpl. rewrite (getCell_getCellOpt _ _ _ _ Hcell).
    destruct p as [t c]. simpl in *. congruence.
  - intros (Hturn & i & j & Hi & Hj & Hrook). exists TypeError.
    apply getCell_of_pieceAt in Hrook.
    unfold possibleMoves.
    apply forLoop_throws with (k := i); [apply collectRow_error | | lia].
    intros acc.
    apply forLoop_throws with (k := j); [apply collectSquare_error | | lia].
    intros acc'. unfold collectSquare. rewrite Hrook.
    cbn [mbind result_bind].
    change (colorIs (Some (mkPiece rook black)) black) with true.
    assert (Hlen8 : (length (board st) <= 8)%nat) by lia.
    rewrite (rook_generates_nothing _ _ _ _ Hlen8 Hrook eq_refl).
    cbn [color]. rewrite Hturn. reflexivity.
  - intros e Herr. unfold possibleMoves in Herr.
    apply forLoop_Err_inv in Herr as (i & acc & _ & Hrow).
    exact (collectRow_error _ _ _ _ Hrow).
Qed.

Lemma possibleMoves_throws_iff_black_rook_witness :
  exists e, possibleMoves (setCurrentPlayer black initialState) = Err e.
Proof.
  apply (proj1 (possibleMoves_throws_iff_black_rook
                  (setCurrentPlayer black initialState) eq_refl)).
  split; [reflexivity |]. exists 0, 0. repeat split; lia.
Defined.

(** X13.  On a board of eight ranks every move in the computer's list
    starts from a black pawn: the computer never moves another piece. *)
Theorem computer_moves_only_black_pawns
    (st : State) (moves : list Move) (i j : Z) (m : Square) :
  (length (board st) <= 8)%nat ->
  possibleMoves st = Ok moves ->
  In ((i, j), m) moves ->
  pieceAt (board st) (i, j) = Some (mkPiece pawn black).
Proof.
  intros Hlen Hmoves Hin.
  apply (possibleMoves_spec _ _ Hmoves) in Hin as (_ & _ & Hblack & ms & Hms & Hm).
  destruct (getCell (board st) i j) as [cell | e] eqn:Hcell.
  - destruct (offered_piece_small_board _ _ _ _ _ _ Hlen Hcell Hms Hm)
      as ([t c] & -> & Ht).
    unfold pieceAt in *. simpl in *.
    rewrite (getCell_getCellOpt _ _ _ _ Hcell) in *. simpl in Hblack.
    injection Hblack as ->. now subst t.
  - unfold getAvailableMoves in Hms. rewrite Hcell in Hms. discriminate.
Qed.

Lemma computer_moves_only_black_pawns_witness :
  pieceAt initialBoard (1, 0) = Some (mkPiece pawn black).
Proof.
  refine (computer_moves_only_black_pawns initialState _ 1 0 (2, 0) _ _ _).
  - simpl. lia.
  - vm_compute. reflexivity.
  - left. reflexivity.
Defined.

(** X14.  The reply started by the timer of line 115 runs in the closure
    of the click that started it, so it reads the board and the history as
    they were before the human's move.  When the computer has a move, the
    board it installs is that earlier board with the computer's piece
    moved (it differs from the board before the click in the two squares of
    the computer's move only), and the history it installs is the earlier
    history plus the computer's entry: the human's move is on neither.
    When the computer has no move, the state after the click stays. *)
Theorem timer_reply_discards_the_click
    (st st' st'' : State) (row col pick : nat) :
  handleSquareClick st row col = Ok (st', true) ->
  makeComputerMove st pick st' = Ok st'' ->
  gameMode st = Some computer /\ currentPlayer st = white
  /\ moveHistory st' <> moveHistory st
  /\ ((possibleMoves st = Ok [] /\ st'' = st')
      \/ exists fromRow fromCol toRow toCol,
           colorOf (pieceAt (board st) (fromRow, fromCol)) = Some black
           /\ movePiece (board st) (Z.to_nat fromRow) (Z.to_nat fromCol)
                (Z.to_nat toRow) (Z.to_nat toCol) = Ok (board st'')
           /\ (forall q : Square,
                 q <> (fromRow, fromCol) -> q <> (toRow, toCol) ->
                 pieceAt (board st'') q = pieceAt (board st) q)
           /\ moveHistory st''
              = moveHistory st ++ [historyEntry fromRow fromCol toRow toCol]
           /\ currentPlayer st'' = white).
Proof.
  intros Hclick Hreply.
  assert (Htimer : gameMode st = Some computer /\ currentPlayer st = white
                   /\ moveHistory st' <> moveHistory st).
  { unfold handleSquareClick in Hclick.
    destruct (selectedSquare st) as [[s0 s1] |].
    - apply bind_Ok in Hclick as ([] & _ & Hclick).
      + apply bind_Ok in Hclick as (nb & _ & Hclick). injection Hclick as <- Ht.
        apply andb_true_iff in Ht as [Hg Hw].
        apply bool_decide_eq_true in Hg, Hw. simpl.
        split; [exact Hg |]. split; [exact Hw | apply snoc_neq].
      + discriminate.
    - apply bind_Ok in Hclick as (cell & _ & Hclick).
      destruct (_ && _); discriminate. }
  destruct Htimer as (Hg & Hw & Hh). split; [exact Hg |]. split; [exact Hw |].
  split; [exact Hh |].
  unfold makeComputerMove in Hreply.
  apply bind_Ok in Hreply as (moves & Hmoves & Hreply).
  destruct (Nat.ltb_spec 0 (length moves)) as [Hsome | Hnone].
  2:{ left. injection Hreply as <-. destruct moves; [auto | simpl in Hnone; lia]. }
  right.
  destruct (moves !! pick) as [[[fromRow fromCol] [toRow toCol]] |] eqn:Hpick;
    [| discriminate].
  apply bind_Ok in Hreply as (nb & Hmv & Hreply). injection Hreply as <-.
  assert (Hin : In ((fromRow, fromCol), (toRow, toCol)) moves).
  { apply list_elem_of_In, list_elem_of_lookup. eauto. }
  apply (possibleMoves_spec _ _ Hmoves) in Hin as (Hi & Hj & Hblack & ms & Hms & Hto).
  apply (getAvailableMoves_filtered _ _ _ _ _ Hms), onBoard_range in Hto as [Hr Hc].
  exists fromRow, fromCol, toRow, toCol. simpl.
  split; [exact Hblack |]. split; [exact Hmv |]. split; [| auto].
  intros q Hqf Hqt. rewrite (movePiece_reads _ _ _ _ _ _ _ Hmv).
  rewrite !Z2Nat.id by lia. now rewrite !decide_False by assumption.
Qed.

Lemma timer_reply_discards_the_click_witness :
  exists st' st'',
    handleSquareClick (setGameMode (Some computer) e2Selected) 4 4 = Ok (st', true)
    /\ makeComputerMove (setGameMode (Some computer) e2Selected) 0 st' = Ok st''
    /\ moveHistory st' <> moveHistory (setGameMode (Some computer) e2Selected).
Proof.
  eexists _, _. split; [vm_compute; reflexivity |].
  split; [vm_compute; reflexivity |].
  refine (proj1 (proj2 (proj2
    (timer_reply_discards_the_click (setGameMode (Some computer) e2Selected)
       _ _ 4 4 0 _ _)))); vm_compute; reflexivity.
Defined.

(** After 1. e4 in computer mode and the reply of the timer, the white pawn
    is back on e2, e4 is empty, and the history holds the reply alone. *)
Example reply_after_e4 :
  match handleSquareClick (setGameMode (Some computer) e2Selected) 4 4 with
  | Ok (st', _) =>
      match makeComputerMove (setGameMode (Some computer) e2Selected) 0 st' with
      | Ok st'' =>
          pieceAt (board st') (4, 4) = Some (mkPiece pawn white)
          /\ pieceAt (board st'') (4, 4) = None
          /\ pieceAt (board st'') (6, 4) = Some (mkPiece pawn white)
          /\ moveHistory st' = ["6,4 to 4,4"%string]
          /\ moveHistory st'' = ["1,0 to 2,0"%string]
      | Err _ => False
      end
  | Err _ => False
  end.
Proof. vm_compute. repeat split. Qed.

(** ** Turn and history *)

(** X15.  Under clicks the side to move follows the length of the
    history: if white is to move exactly when the history has an even
    number of entries, this is still so after a click. *)
Theorem handleSquareClick_keeps_turn_parity
    (st st' : State) (row col : nat) (timer : bool) :
  turnMatchesHistory st ->
  handleSquareClick st row col = Ok (st', timer) ->
  turnMatchesHistory st'.
Proof.
  unfold turnMatchesHistory, handleSquareClick. intros Hturn Hclick.
  destruct (selectedSquare st) as [[s0 s1] |].
  - apply bind_Ok in Hclick as ([] & _ & Hclick).
    + apply bind_Ok in Hclick as (nb & _ & Hclick). injection Hclick as <- _.
      simpl. rewrite length_app, Nat.add_1_r, Nat.even_succ, <- Nat.negb_even.
      rewrite Hturn. now destruct (Nat.even _).
    + now injection Hclick as <- _.
  - apply bind_Ok in Hclick as (cell & _ & Hclick).
    destruct (_ && _); now injection Hclick as <- _.
Qed.

Lemma handleSquareClick_keeps_turn_parity_witness :
  exists st' timer,
    handleSquareClick e2Selected 4 4 = Ok (st', timer) /\ turnMatchesHistory st'.
Proof.
  eexists _, _. split; [vm_compute; reflexivity |].
  refine (handleSquareClick_keeps_turn_parity e2Selected _ 4 4 _ _ _).
  - reflexivity.
  - vm_compute. reflexivity.
Defined.

(** ** Saving and loading *)

(** X16.  Whatever is stored, a load that succeeds leaves the selection,
    the highlighted moves and the game mode as they were: a square selected
    before the load stays selected on the loaded board. *)
Theorem loadGame_keeps_selection
    (current loaded : State) (localStorage : gmap string string) :
  loadGame current localStorage = Ok loaded ->
  selectedSquare loaded = selectedSquare current
  /\ availableMoves loaded = availableMoves current
  /\ gameMode loaded = gameMode current.
Proof.
  unfold loadGame. intros Hload.
  destruct (localStorage !! storageKey) as [[| ch text] |].
  - now injection Hload as <-.
  - apply bind_Ok in Hload as (j & _ & Hload).
    destruct j as [| | | fields]; try discriminate.
    destruct (getField "board" fields ≫= boardOfJSON) as [b |]; [| discriminate].
    destruct ((getField "currentPlayer" fields ≫= stringOfJSON) ≫= colorOfName)
      as [c |]; [| discriminate].
    destruct (getField "moveHistory" fields ≫= historyOfJSON) as [h |];
      [| discriminate].
    now injection Hload as <-.
  - now injection Hload as <-.
Qed.

Lemma loadGame_keeps_selection_witness :
  exists loaded,
    loadGame e2Selected (saveGame kinglessState ∅) = Ok loaded
    /\ selectedSquare loaded = Some (6, 4)%nat.
Proof.
  eexists. split; [vm_compute; reflexivity |].
  refine (proj1 (loadGame_keeps_selection e2Selected _ (saveGame kinglessState ∅) _)).
  vm_compute. reflexivity.
Defined.

(** X17.  There is one slot: a second save replaces the first, so a load
    after two saves gives the game saved last; every other key of
    [localStorage] is left as it was. *)
Theorem saveGame_one_slot
    (G1 G2 current : State) (localStorage : gmap string string) :
  saveGame G2 (saveGame G1 localStorage) = saveGame G2 localStorage
  /\ loadGame current (saveGame G2 (saveGame G1 localStorage))
     = loadGame current (saveGame G2 localStorage)
  /\ forall k, k <> storageKey -> saveGame G1 localStorage !! k = localStorage !! k.
Proof.
  assert (H : saveGame G2 (saveGame G1 localStorage) = saveGame G2 localStorage).
  { unfold saveGame. apply insert_insert_eq. }
  split; [exact H |]. split; [now rewrite H |].
  intros k Hk. unfold saveGame. now apply lookup_insert_ne.
Qed.

(** X18.  The saved text determines the game: two states whose saved texts
    are equal have the same board, the same side to move and the same
    history. *)
Theorem saved_text_determines_game (G1 G2 : State) :
  JSON_stringify (gameStateToJSON G1) = JSON_stringify (gameStateToJSON G2) ->
  board G1 = board G2
  /\ currentPlayer G1 = currentPlayer G2
  /\ moveHistory G1 = moveHistory G2.
Proof.
  intros Htext.
  assert (Hload : loadGame G1 (saveGame G1 ∅) = loadGame G1 (saveGame G2 ∅)).
  { unfold saveGame. now rewrite Htext. }
  rewrite !loadGame_saveGame in Hload. injection Hload as Hb Hc Hh. auto.
Qed.

Lemma saved_text_determines_game_witness :
  board initialState = board e2Selected
  /\ currentPlayer initialState = currentPlayer e2Selected
  /\ moveHistory initialState = moveHistory e2Selected.
Proof.
  apply (saved_text_determines_game initialState e2Selected).
  vm_compute. reflexivity.
Defined.

(** ** The chat *)

Lemma truthy_trimEnd (s : string) : truthy (trimEnd s) = negb (isBlank s).
Proof.
  unfold isBlank. induction s as [| c rest IH]; [reflexivity |].
  cbn [trimEnd list_ascii_of_string forallb].
  destruct (trimEnd rest) as [| k kept].
  - simpl in IH. symmetry in IH. apply negb_false_iff in IH. rewrite IH.
    rewrite andb_true_r. now destruct (isTrimSpace c).
  - simpl in IH. symmetry in IH. apply negb_true_iff in IH. rewrite IH.
    now rewrite andb_false_r.
Qed.

Lemma isBlank_trimStart (s : string) : isBlank (trimStart s) = isBlank s.
Proof.
  unfold isBlank. induction s as [| c rest IH]; [reflexivity |].
  cbn [trimStart]. destruct (isTrimSpace c) eqn:Hc.
  - rewrite IH. cbn [list_ascii_of_string forallb]. now rewrite Hc.
  - reflexivity.
Qed.

Lemma truthy_trim (s : string) : truthy (trim s) = negb (isBlank s).
Proof. unfold trim. now rewrite truthy_trimEnd, isBlank_trimStart. Qed.

(** X19.  [sendMessage] does nothing when the input holds white space
    only: the list of messages and the input stay as they are.  Otherwise
    it appends the input as typed, surrounding white space included, and
    empties the input. *)
Theorem sendMessage_sends_unless_blank (chat : Chat) :
  sendMessage chat =
    if isBlank (newMessage chat) then chat
    else {| messages := messages chat ++ [newMessage chat];
            newMessage := EmptyString |}.
Proof.
  unfold sendMessage. rewrite truthy_trim. now destruct (isBlank _).
Qed.

(** X20.  Sending twice in a row sends once: the second call finds the
    input empty, or finds the blank input the first call left. *)
Theorem sendMessage_twice (chat : Chat) :
  sendMessage (sendMessage chat) = sendMessage chat.
Proof.
  unfold sendMessage. destruct (truthy (trim (newMessage chat))) eqn:Hsend.
  - reflexivity.
  - now rewrite Hsend.
Qed.

(** ** The chequered board *)

Section Shades.
Local Open Scope nat_scope.

Lemma mod2_S (n : nat) : S n mod 2 = 1 - n mod 2.
Proof.
  pose proof (Nat.mod_upper_bound n 2 ltac:(lia)) as Hlt.
  pose proof (Nat.div_mod_eq n 2) as Hn.
  pose proof (Nat.mod_upper_bound (S n) 2 ltac:(lia)) as Hlt'.
  pose proof (Nat.div_mod_eq (S n) 2) as Hn'.
  lia.
Qed.

(** X21.  Squares next to each other in a rank or in a file are rendered
    in different shades, squares that touch by a corner in the same shade;
    the top left square is light. *)
Theorem squareShade_chequered (rowIndex colIndex : nat) :
  squareShade rowIndex (S colIndex) <> squareShade rowIndex colIndex
  /\ squareShade (S rowIndex) colIndex <> squareShade rowIndex colIndex
  /\ squareShade (S rowIndex) (S colIndex) = squareShade rowIndex colIndex
  /\ squareShade 0 0 = light.
Proof.
  unfold squareShade.
  replace (rowIndex + S colIndex) with (S (rowIndex + colIndex)) by lia.
  replace (S rowIndex + colIndex) with (S (rowIndex + colIndex)) by lia.
  replace (S rowIndex + S colIndex) with (S (S (rowIndex + colIndex))) by lia.
  rewrite (mod2_S (S (rowIndex + colIndex))), !mod2_S.
  pose proof (Nat.mod_upper_bound (rowIndex + colIndex) 2 ltac:(lia)) as Hlt.
  destruct ((rowIndex + colIndex) mod 2) as [| [| n]]; simpl;
    repeat split; try discriminate; lia.
Qed.

End Shades.

(** ** When [isValidMove] throws *)

(** X22.  [isValidMove] throws, and then a [TypeError], in two cases only:
    the rank of the source is not a rank of the board; or the source holds
    a piece of the player to move and the rank of the destination is not a
    rank of the board.  A file off the board never makes it throw. *)
Theorem isValidMove_throws_iff (st : State) (fromRow fromCol toRow toCol : Z) :
  ((exists e, isValidMove st (fromRow, fromCol) (toRow, toCol) = Err e) <->
   (index (board st) fromRow = None
    \/ (colorOf (pieceAt (board st) (fromRow, fromCol)) = Some (currentPlayer st)
        /\ index (board st) toRow = None)))
  /\ (forall e, isValidMove st (fromRow, fromCol) (toRow, toCol) = Err e -> e = TypeError).
Proof.
  split; [| intros e; apply isValidMove_error].
  unfold isValidMove, pieceAt, getCellOpt, getCell. simpl.
  destruct (index (board st) fromRow) as [cells |]; cbn [mbind result_bind].
  2:{ split; [auto | eauto]. }
  destruct (mjoin (index cells fromCol)) as [p |]; simpl.
  2:{ split; [intros [e He]; discriminate | intros [H | [H _]]; discriminate]. }
  destruct (bool_decide_reflect (color p = currentPlayer st)) as [Hc | Hc]; simpl.
  - destruct (index (board st) toRow) as [cellsT |]; cbn [mbind result_bind].
    + split.
      * intros [e He]. destruct (colorIs _ _); discriminate.
      * intros [H | [_ H]]; discriminate.
    + split; [intros _; right; split; [now rewrite Hc | reflexivity] | eauto].
  - split; [intros [e He]; discriminate |].
    intros [H | [H _]]; [discriminate | congruence].
Qed.

(** ** No move is listed twice *)

Lemma NoDup_pushIf (cond : bool) (sq : Square) (moves : list Square) :
  NoDup moves -> ~ In sq moves -> NoDup (pushIf cond sq moves).
Proof.
  intros Hnd Hnew. unfold pushIf. destruct cond; [| exact Hnd].
  apply NoDup_app. split; [exact Hnd |]. split.
  - intros x Hx Hsq. apply list_elem_of_In in Hx.
    apply list_elem_of_In in Hsq as [<- | []]. contradiction.
  - apply NoDup_singleton.
Qed.

Lemma direction_unit (c : PieceColor) : direction c = -1 \/ direction c = 1.
Proof. destruct c; auto. Qed.

Local Ltac not_pushed H :=
  rewrite ?In_pushIf; intros H;
  repeat match type of H with
  | _ \/ _ => destruct H as [H | [_ H]]
  | In _ [] => destruct H
  | (_, _) = (_, _) => injection H; lia
  end.

Lemma pawnMoves_NoDup (b : Board) (row col : Z) (c : PieceColor) :
  NoDup (pawnMoves b row col c).
Proof.
  unfold pawnMoves. pose proof (direction_unit c) as Hd.
  destruct (_ || _);
    repeat (apply NoDup_pushIf; [| let H := fresh "H" in not_pushed H]);
    constructor.
Qed.

Lemma rookStep_NoDup st row col i moves moves' :
  1 <= i ->
  NoDup moves ->
  (forall m, In m moves -> within row col i m) ->
  rookStep st row col i moves = Ok moves' ->
  NoDup moves' /\ (forall m, In m moves' -> within row col (i + 1) m).
Proof.
  unfold rookStep, within. intros Hi Hnd Hwithin Hstep.
  apply bind_Ok in Hstep as (v1 & _ & Hstep).
  apply bind_Ok in Hstep as (v2 & _ & Hstep).
  apply bind_Ok in Hstep as (v3 & _ & Hstep).
  apply bind_Ok in Hstep as (v4 & _ & Hstep). injection Hstep as <-.
  split.
  - do 4 (apply NoDup_pushIf;
          [| rewrite ?In_pushIf; intros H;
             repeat match type of H with
             | _ \/ _ => destruct H as [H | [_ H]]
             | In _ moves => apply Hwithin in H; simpl in H; lia
             | (_, _) = (_, _) => injection H; lia
             end]).
    exact Hnd.
  - intros m Hm. rewrite !In_pushIf in Hm.
    destruct Hm as [[[[Hm | [_ ->]] | [_ ->]] | [_ ->]] | [_ ->]]; simpl; try lia.
    apply Hwithin in Hm. lia.
Qed.

Lemma rookLoop_NoDup st row col n moves :
  forLoop n 1 (rookStep st row col) [] = Ok moves -> NoDup moves.
Proof.
  intros Hrun.
  pose (Inv := fun (i : Z) (acc : list Square) =>
          1 <= i /\ NoDup acc /\ forall m, In m acc -> within row col i m).
  assert (Hinv : Inv (1 + Z.of_nat n) moves).
  { apply (forLoop_invariant Inv (rookStep st row col) n 1 [] moves);
      [| | exact Hrun].
    - split; [lia |]. split; [constructor | intros m []].
    - intros j s1 s2 Hj (Hj1 & Hnd & Hw) Hstep.
      destruct (rookStep_NoDup _ _ _ _ _ _ Hj1 Hnd Hw Hstep) as [Hnd' Hw'].
      split; [lia |]. split; assumption. }
  exact (proj1 (proj2 Hinv)).
Qed.

Lemma NoDup_bool_filter {A : Type} (f : A -> bool) (l : list A) :
  NoDup l -> NoDup (List.filter f l).
Proof.
  induction 1 as [| x l Hx _ IH]; simpl; [constructor |].
  destruct (f x); [| exact IH]. constructor; [| exact IH].
  intros Hin%list_elem_of_In. apply filter_In in Hin as [Hin _].
  apply Hx. now apply list_elem_of_In.
Qed.

Lemma getAvailableMoves_NoDup st row col ms :
  getAvailableMoves st row col = Ok ms -> NoDup ms.
Proof.
  unfold getAvailableMoves. intros Hms.
  apply bind_Ok in Hms as ([p |] & _ & Hms); [| injection Hms as <-; constructor].
  apply bind_Ok in Hms as (moves & Hmoves & Hms). injection Hms as <-.
  apply NoDup_bool_filter.
  destruct (type p); try (injection Hmoves as <-; constructor).
  - injection Hmoves as <-. apply pawnMoves_NoDup.
  - exact (rookLoop_NoDup _ _ _ _ _ Hmoves).
Qed.

Lemma NoDup_map_pair {A B : Type} (a : A) (l : list B) :
  NoDup l -> NoDup (map (fun x => (a, x)) l).
Proof.
  induction 1 as [| x l Hx _ IH]; simpl; constructor; [| exact IH].
  intros Hin%list_elem_of_In. apply in_map_iff in Hin as (y & [= ->] & Hy).
  apply Hx. now apply list_elem_of_In.
Qed.

(** What one square adds to the list: its moves, each once, at the end. *)
Lemma collectSquare_appends st i j acc acc' :
  collectSquare st i j acc = Ok acc' ->
  exists ms, NoDup ms /\ acc' = (acc ++ map (fun m => ((i, j), m)) ms)%list.
Proof.
  unfold collectSquare. intros Hc.
  apply bind_Ok in Hc as (cell & _ & Hc).
  destruct (colorIs cell black).
  - apply bind_Ok in Hc as (ms & Hms & Hc). injection Hc as <-.
    exists ms. split; [exact (getAvailableMoves_NoDup _ _ _ _ Hms) | reflexivity].
  - injection Hc as <-. exists []. split; [constructor |]. simpl.
    now rewrite app_nil_r.
Qed.

Lemma collectSquare_NoDup st i j acc acc' :
  NoDup acc -> sourcesBefore i j acc ->
  collectSquare st i j acc = Ok acc' ->
  NoDup acc' /\ sourcesBefore i (j + 1) acc'.
Proof.
  intros Hnd Hbefore Hc.
  destruct (collectSquare_appends _ _ _ _ _ Hc) as (ms & Hms & ->). split.
  - apply NoDup_app. split; [exact Hnd |]. split; [| now apply NoDup_map_pair].
    intros [[a b] m] Hacc Hnew. apply list_elem_of_In in Hacc, Hnew.
    apply in_map_iff in Hnew as (m' & [= -> -> ->] & _).
    apply Hbefore in Hacc. lia.
  - intros a b m Hin. apply in_app_iff in Hin as [Hin | Hin].
    + apply Hbefore in Hin. lia.
    + apply in_map_iff in Hin as (m' & [= -> -> ->] & _). lia.
Qed.

Lemma collectRow_NoDup st i acc acc' :
  NoDup acc -> sourcesBefore i 0 acc ->
  forLoop 8 0 (fun j => collectSquare st i j) acc = Ok acc' ->
  NoDup acc' /\ sourcesBefore (i + 1) 0 acc'.
Proof.
  intros Hnd Hbefore Hrow.
  pose (Inv := fun (j : Z) (acc2 : list Move) => NoDup acc2 /\ sourcesBefore i j acc2).
  assert (Hinv : Inv (0 + Z.of_nat 8) acc').
  { apply (forLoop_invariant Inv (fun j => collectSquare st i j) 8 0 acc acc');
      [| | exact Hrow].
    - split; assumption.
    - intros j s1 s2 _ [Hnd1 Hb1] Hsq.
      exact (collectSquare_NoDup _ _ _ _ _ Hnd1 Hb1 Hsq). }
  destruct Hinv as [Hnd' Hb']. split; [exact Hnd' |].
  intros a b m Hin. apply Hb' in Hin. lia.
Qed.

Lemma possibleMoves_NoDup st moves : possibleMoves st = Ok moves -> NoDup moves.
Proof.
  unfold possibleMoves. intros Hrun.
  pose (Inv := fun (i : Z) (acc : list Move) => NoDup acc /\ sourcesBefore i 0 acc).
  assert (Hinv : Inv (0 + Z.of_nat 8) moves).
  { apply (forLoop_invariant Inv
             (fun i => forLoop 8 0 (fun j => collectSquare st i j)) 8 0 [] moves);
      [| | exact Hrun].
    - split; [constructor | intros a b m []].
    - intros i s1 s2 _ [Hnd1 Hb1] Hrow.
      exact (collectRow_NoDup _ _ _ _ Hnd1 Hb1 Hrow). }
  exact (proj1 Hinv).
Qed.

(** C5, amended.  The list [makeComputerMove] builds holds exactly the
    moves [getAvailableMoves] gives for the black pieces of the first eight
    ranks and files of the board it reads, each of them once: no move is
    listed twice, so every move of that set is drawn by exactly one index
    below the length, and the index [Math.floor(Math.random() * length)]
    picks among them with equal chances.  When the list is empty the
    function changes nothing and raises nothing.  Otherwise the entry at
    the index drawn is applied on a copy of that board: the new board
    replaces the old one, white is to move, and the move is appended to the
    history the function read. *)
Theorem makeComputerMove_picks_listed_move
    (closure live : State) (pick : nat) (moves : list Move) :
  possibleMoves closure = Ok moves ->
  NoDup moves
  /\ (moves = [] -> makeComputerMove closure pick live = Ok live)
  /\ (forall fromRow fromCol toRow toCol,
        moves !! pick = Some ((fromRow, fromCol), (toRow, toCol)) ->
        blackMove closure fromRow fromCol (toRow, toCol)
        /\ exists newBoard,
             movePiece (board closure) (Z.to_nat fromRow) (Z.to_nat fromCol)
               (Z.to_nat toRow) (Z.to_nat toCol) = Ok newBoard
             /\ makeComputerMove closure pick live =
                  Ok (setMoveHistory
                        (moveHistory closure
                           ++ [historyEntry fromRow fromCol toRow toCol])
                        (setCurrentPlayer white (setBoard newBoard live))))
  /\ (forall i j m,
        0 <= i < 8 -> 0 <= j < 8 -> blackMove closure i j m ->
        exists k, (k < length moves)%nat
                  /\ moves !! k = Some ((i, j), m)
                  /\ forall k', moves !! k' = Some ((i, j), m) -> k' = k).
Proof.
  intros Hmoves. pose proof (possibleMoves_NoDup _ _ Hmoves) as Hnd.
  split; [exact Hnd |]. split; [| split].
  - intros ->. unfold makeComputerMove. rewrite Hmoves. reflexivity.
  - intros fromRow fromCol toRow toCol Hpick.
    assert (Hin : In ((fromRow, fromCol), (toRow, toCol)) moves).
    { apply list_elem_of_In, list_elem_of_lookup. eauto. }
    apply (possibleMoves_spec _ _ Hmoves) in Hin as (Hi & Hj & Hblack).
    split; [exact Hblack |].
    destruct Hblack as (_ & ms & Hms & Hto).
    destruct (onBoard_range _ _ (getAvailableMoves_filtered _ _ _ _ _ Hms Hto))
      as [Hr Hc].
    pose proof (possibleMoves_ranks _ _ Hmoves) as Hlen.
    destruct (movePiece_Ok (board closure) (Z.to_nat fromRow) (Z.to_nat fromCol)
                (Z.to_nat toRow) (Z.to_nat toCol)) as [newBoard Hmv]; [lia | lia |].
    exists newBoard. split; [exact Hmv |].
    unfold makeComputerMove. rewrite Hmoves. cbn [mbind result_bind].
    apply lookup_lt_Some in Hpick as Hlt.
    destruct (Nat.ltb_spec 0 (length moves)) as [_ | Hzero]; [| lia].
    rewrite Hpick, Hmv. reflexivity.
  - intros i j m Hi Hj Hblack.
    assert (Hin : In ((i, j), m) moves).
    { apply (possibleMoves_spec _ _ Hmoves). auto. }
    apply list_elem_of_In, list_elem_of_lookup in Hin as [k Hk].
    exists k. split; [now apply lookup_lt_Some in Hk |]. split; [exact Hk |].
    intros k' Hk'. exact (NoDup_lookup _ _ _ _ Hnd Hk' Hk).
Qed.

Lemma makeComputerMove_picks_listed_move_witness :
  blackMove initialState 1 0 (2, 0).
Proof.
  refine (proj1 (proj1 (proj2 (proj2
            (makeComputerMove_picks_listed_move initialState initialState 0 _ _)))
            1 0 2 0 _)).
  - vm_compute. reflexivity.
  - reflexivity.
Defined.

(** ** Loading accepts every saved board *)

Lemma kingCount_app (b1 b2 : Board) (c : PieceColor) :
  kingCount (b1 ++ b2) c = (kingCount b1 c + kingCount b2 c)%nat.
Proof.
  unfold kingCount. now rewrite concat_app, List.filter_app, length_app.
Qed.

Lemma kingCount_king_ranks (n : nat) (c c' : PieceColor) :
  kingCount (replicate n (Some (mkPiece king c) :: replicate 7 None)) c'
  = if decide (c = c') then n else 0%nat.
Proof.
  induction n as [| n IH].
  - now destruct (decide _).
  - change (replicate (S n) (Some (mkPiece king c) :: replicate 7 None))
      with ([Some (mkPiece king c) :: replicate 7 None]
              ++ replicate n (Some (mkPiece king c) :: replicate 7 None))%list.
    rewrite kingCount_app, IH. destruct c, c'; reflexivity.
Qed.

Lemma kingCount_boardWithKings (w k : nat) :
  kingCount (boardWithKings w k) white = w
  /\ kingCount (boardWithKings w k) black = k.
Proof.
  unfold boardWithKings. rewrite !kingCount_app, !kingCount_king_ranks.
  simpl. lia.
Qed.

(** C7, amended.  [loadGame] rejects no saved board for its kings.  For
    every game [G], whatever the number of kings of either colour on its
    board, loading the text [saveGame] stored for [G] raises no error and
    replaces the current board, side to move and history by those of [G],
    keeping the rest of the current state; and for every pair of numbers
    [w] and [k] there is a board with exactly [w] white kings and [k] black
    kings that is saved and loaded in this way. *)
Theorem loadGame_accepts_every_saved_board
    (G current : State) (localStorage : gmap string string) (w k : nat) :
  loadGame current (saveGame G localStorage)
  = Ok (setMoveHistory (moveHistory G)
          (setCurrentPlayer (currentPlayer G) (setBoard (board G) current)))
  /\ kingCount (boardWithKings w k) white = w
  /\ kingCount (boardWithKings w k) black = k
  /\ loadGame current (saveGame (setBoard (boardWithKings w k) G) localStorage)
     = Ok (setMoveHistory (moveHistory G)
             (setCurrentPlayer (currentPlayer G)
                (setBoard (boardWithKings w k) current))).
Proof.
  split; [apply loadGame_saveGame |].
  destruct (kingCount_boardWithKings w k) as [Hw Hk].
  split; [exact Hw |]. split; [exact Hk |].
  apply (loadGame_saveGame (setBoard (boardWithKings w k) G)).
Qed.
